(** * health-claim-checker: the claim-extraction core ([claim_extract.py])

    A shallow embedding of [merge_segments], [is_strong_claim],
    [load_transcript] and [filter_claims], and the properties of them
    stated in the specification; then of [split_sentences],
    [extract_entities], the script and the transcript writer of
    [download_and_transcribe.py], with further properties of the code.

    Conventions of the embedding.
    - A Python [str] is a [string]; a character is a code point below 256
      (the Latin-1 block), and the character predicates below are Python's
      [str.islower], [str.isspace], [str.isalnum] and [str.lower] on that
      block.  [Wide] adds the long s and the dotless i, the letters
      beyond it that [re.IGNORECASE] matches with s and i.
    - A Python exception is a value of [exn]; a function that can raise
      returns a [result].
    - A compiled regular expression is a [pattern]: its syntax tree and its
      [re.IGNORECASE] flag.  [re_match] and [re_search] give the truth value
      of [Pattern.match] and [Pattern.search], which is all the code uses. *)

From Stdlib Require Import Ascii String Bool Arith Lia.
From stdpp Require Import base option list strings gmap.


(** ** Exceptions *)

Inductive exn : Type :=
| ValueError
| IndexError
| FileNotFoundError.

Inductive result (A : Type) : Type :=
| Ok (a : A)
| Raise (e : exn).
Arguments Ok {A} a.
Arguments Raise {A} e.

Global Instance result_ret : MRet result := fun _ a => Ok a.
Global Instance result_bind : MBind result := fun _ _ f r =>
  match r with
  | Ok a => f a
  | Raise e => Raise e
  end.

(** A [for] loop whose body updates a state and may raise: the first
    exception leaves the loop. *)
Fixpoint for_each {S A : Type} (body : S -> A -> result S) (st : S) (xs : list A)
  : result S :=
  match xs with
  | [] => Ok st
  | x :: xs' => st' ← body st x; for_each body st' xs'
  end.

(** ** Characters *)

Module Char.

Definition code (c : ascii) : nat := nat_of_ascii c.

Definition between (lo hi : nat) (c : ascii) : bool :=
  (lo <=? code c) && (code c <=? hi).

(** [c.islower()]: a-z, the ordinal indicators, the micro sign and the
    lowercase letters of Latin-1. *)
Definition islower (c : ascii) : bool :=
  between 97 122 c || (code c =? 170) || (code c =? 181) || (code c =? 186)
  || between 223 246 c || between 248 255 c.

(** [c.isupper()]: A-Z and the uppercase letters of Latin-1. *)
Definition isupper (c : ascii) : bool :=
  between 65 90 c || between 192 214 c || between 216 222 c.

(** [c.lower()]: every uppercase character of the block has its lowercase
    form 32 code points above it. *)
Definition lower (c : ascii) : ascii :=
  if isupper c then ascii_of_nat (code c + 32) else c.

(** [c.isspace()]: tab to carriage return, the four separators, space,
    next line and no-break space. *)
Definition isspace (c : ascii) : bool :=
  between 9 13 c || between 28 32 c || (code c =? 133) || (code c =? 160).

(** [c.isalnum()]: letters, digits and the numeric characters (superscript
    digits and vulgar fractions). *)
Definition isalnum (c : ascii) : bool :=
  between 48 57 c || between 65 90 c || between 97 122 c
  || (code c =? 170) || (code c =? 178) || (code c =? 179) || (code c =? 181)
  || (code c =? 185) || (code c =? 186) || between 188 190 c
  || between 192 214 c || between 216 246 c || between 248 255 c.

(** The class [\w] of the [re] module on [str] patterns. *)
Definition isword (c : ascii) : bool := isalnum c || (code c =? 95).

End Char.

(** ** Strings *)

Module Str.

Fixpoint map (f : ascii -> ascii) (s : string) : string :=
  match s with
  | EmptyString => EmptyString
  | String c s' => String (f c) (map f s')
  end.

(** [s.lower()] *)
Definition lower (s : string) : string := map Char.lower s.

(** [c in s] for a character [c]. *)
Fixpoint mem (c : ascii) (s : string) : bool :=
  match s with
  | EmptyString => false
  | String a s' => bool_decide (a = c) || mem c s'
  end.

(** [s.split(sep, 1)] for a one-character separator: the whole string when
    the separator does not occur, else the parts before and after its
    first occurrence. *)
Fixpoint split1 (sep : ascii) (s : string) : list string :=
  match s with
  | EmptyString => [EmptyString]
  | String c s' =>
      if bool_decide (c = sep) then [EmptyString; s']
      else match split1 sep s' with
           | h :: t => String c h :: t
           | [] => []
           end
  end.

(** [s.lstrip()], [s.rstrip()] and [s.strip()] *)
Fixpoint lstrip (s : string) : string :=
  match s with
  | EmptyString => EmptyString
  | String c s' => if Char.isspace c then lstrip s' else s
  end.

Fixpoint rstrip (s : string) : string :=
  match s with
  | EmptyString => EmptyString
  | String c s' =>
      match rstrip s' with
      | EmptyString => if Char.isspace c then EmptyString else String c EmptyString
      | r => String c r
      end
  end.

Definition strip (s : string) : string := rstrip (lstrip s).

(** The part of [s] before the first [sep], and the part after it (empty
    when [sep] does not occur). *)
Fixpoint before (sep : ascii) (s : string) : string :=
  match s with
  | EmptyString => EmptyString
  | String c s' => if bool_decide (c = sep) then EmptyString else String c (before sep s')
  end.

Fixpoint after (sep : ascii) (s : string) : string :=
  match s with
  | EmptyString => EmptyString
  | String c s' => if bool_decide (c = sep) then s' else after sep s'
  end.

(** The last character of [s], or [d] when [s] is empty. *)
Fixpoint last_or (d : option ascii) (s : string) : option ascii :=
  match s with
  | EmptyString => d
  | String c s' => last_or (Some c) s'
  end.

Definition last (s : string) : option ascii := last_or None s.

Global Arguments mem c%_char s.
Global Arguments split1 sep%_char s.
Global Arguments before sep%_char s.
Global Arguments after sep%_char s.

(** [s[0].islower()], false on the empty string (the code guards the
    subscript with the truth value of [s]). *)
Definition head_islower (s : string) : bool :=
  match s with
  | EmptyString => false
  | String c _ => Char.islower c
  end.

End Str.

(** Unpacking a list into two names and subscripting it, with Python's
    exceptions. *)
Definition unpack2 {A : Type} (l : list A) : result (A * A) :=
  match l with
  | [a; b] => Ok (a, b)
  | _ => Raise ValueError
  end.

Definition subscript {A : Type} (l : list A) (i : nat) : result A :=
  match l !! i with
  | Some a => Ok a
  | None => Raise IndexError
  end.

(** ** [merge_segments] *)

(** A segment is the pair of its time range and its text. *)
Abbreviation segment := (string * string)%type (only parsing).

(** One iteration of the loop of [merge_segments] on the list [merged]. *)
Definition merge_step (merged : list segment) (seg : segment)
  : result (list segment) :=
  let '(timerange, text) := seg in
  if bool_decide (text ≠ "") && Str.head_islower text && bool_decide (merged ≠ [])
  then
    match last merged with
    | Some (prev_range, prev_text) =>
        '(start_prev, _) ← unpack2 (Str.split1 "-" prev_range);
        end_curr ← subscript (Str.split1 "-" timerange) 1;
        let new_range := start_prev +:+ "-" +:+ end_curr in
        let new_text := prev_text +:+ " " +:+ text in
        Ok (<[length merged - 1 := (new_range, new_text)]> merged)
    | None => Raise IndexError
    end
  else Ok (merged ++ [(timerange, text)]).

Definition merge_segments (segments : list segment) : result (list segment) :=
  for_each merge_step [] segments.

(** ** Regular expressions

    The fragment of the [re] syntax the module's three patterns use. *)

Inductive regex : Type :=
| Eps                        (* the empty pattern *)
| Lit (c : ascii)            (* a literal character *)
| Seq (r1 r2 : regex)        (* r1 r2 *)
| Alt (r1 r2 : regex)        (* r1|r2 *)
| Opt (r : regex)            (* r? *)
| Group (r : regex)          (* (r) *)
| Bol                        (* ^ *)
| WordB.                     (* \b *)

Record pattern : Type := Pattern { source : regex; ignorecase : bool }.

Module Re.

(** The literal string [s] as a regex. *)
Fixpoint word (s : string) : regex :=
  match s with
  | EmptyString => Eps
  | String c s' => Seq (Lit c) (word s')
  end.

(** The source text of a regex. *)
Fixpoint show (r : regex) : string :=
  match r with
  | Eps => ""
  | Lit c => String c EmptyString
  | Seq r1 r2 => show r1 +:+ show r2
  | Alt r1 r2 => show r1 +:+ "|" +:+ show r2
  | Opt r => show r +:+ "?"
  | Group r => "(" +:+ show r +:+ ")"
  | Bol => "^"
  | WordB => "\b"
  end.

Definition head (s : string) : option ascii :=
  match s with
  | EmptyString => None
  | String c _ => Some c
  end.

(** Whether the character at one side of a position is a word character;
    [None] is the outside of the string. *)
Definition word_side (c : option ascii) : bool :=
  match c with
  | Some a => Char.isword a
  | None => false
  end.

(** A literal of the pattern against a character of the subject: under
    [re.IGNORECASE] both are compared through their lowercase forms. *)
Definition lit_eq (ic : bool) (c a : ascii) : bool :=
  if ic then bool_decide (Char.lower a = Char.lower c) else bool_decide (a = c).

(** The backtracking matcher, in continuation-passing style.  A position
    of the subject is the character before it ([None] at the start of the
    string) and the rest of the string from it; [k] is what the rest of
    the pattern does from the position [r] ends at. *)
Fixpoint run (ic : bool) (r : regex) (prev : option ascii) (s : string)
    (k : option ascii -> string -> bool) : bool :=
  match r with
  | Eps => k prev s
  | Lit c =>
      match s with
      | String a s' => if lit_eq ic c a then k (Some a) s' else false
      | EmptyString => false
      end
  | Seq r1 r2 => run ic r1 prev s (fun p t => run ic r2 p t k)
  | Alt r1 r2 => run ic r1 prev s k || run ic r2 prev s k
  | Opt r1 => run ic r1 prev s k || k prev s
  | Group r1 => run ic r1 prev s k
  | Bol => match prev with None => k prev s | Some _ => false end
  | WordB =>
      if xorb (word_side prev) (word_side (head s)) then k prev s else false
  end.

Definition accept : option ascii -> string -> bool := fun _ _ => true.

(** Whether the pattern matches at the position ([prev], [s]) or at a
    later one. *)
Fixpoint scan (ic : bool) (r : regex) (prev : option ascii) (s : string) : bool :=
  run ic r prev s accept
  || match s with
     | EmptyString => false
     | String a s' => scan ic r (Some a) s'
     end.

Global Arguments Lit c%_char.

End Re.

(** [bool(p.match(s))]: a match at the start of [s]. *)
Definition re_match (p : pattern) (s : string) : bool :=
  Re.run (ignorecase p) (source p) None s Re.accept.

(** [bool(p.search(s))]: a match somewhere in [s]. *)
Definition re_search (p : pattern) (s : string) : bool :=
  Re.scan (ignorecase p) (source p) None s.

(** ** [is_strong_claim] *)

(** [makes?] *)
Definition makes_opt : regex := Seq (Re.word "make") (Opt (Lit "s")).

(** [that'?s] *)
Definition thats_opt : regex := Seq (Re.word "that") (Seq (Opt (Lit "'")) (Lit "s")).

Definition VERB_PATTERN : pattern :=
  Pattern
    (Seq WordB
       (Seq (Group (Alt (Re.word "lose") (Alt (Re.word "gain") (Alt (Re.word "burn")
              (Alt (Re.word "get") (Alt makes_opt (Alt (Re.word "is")
              (Alt (Re.word "will") (Alt (Re.word "can") (Re.word "do"))))))))))
          WordB))
    true.

Definition INTRO_PATTERN : pattern :=
  Pattern
    (Seq Bol
       (Group (Alt (Re.word "one of") (Alt thats_opt
              (Alt (Re.word "my name") (Re.word "that's"))))))
    true.

Definition is_strong_claim (sent : string) : bool :=
  let sent_l := Str.lower sent in
  if re_match INTRO_PATTERN sent_l then false
  else re_search VERB_PATTERN sent_l.

(** The intro pattern without its last alternative, and the predicate built
    on it. *)
Definition INTRO_PATTERN_dedup : pattern :=
  Pattern
    (Seq Bol
       (Group (Alt (Re.word "one of") (Alt thats_opt (Re.word "my name")))))
    true.

Definition is_strong_claim_dedup (sent : string) : bool :=
  let sent_l := Str.lower sent in
  if re_match INTRO_PATTERN_dedup sent_l then false
  else re_search VERB_PATTERN sent_l.

(** ** [load_transcript] *)

Module File.

Definition LF : ascii := "010"%char.
Definition CR : ascii := "013"%char.

(** Text mode with the default [newline=None]: a carriage return, with the
    line feed after it if there is one, is read as a line feed. *)
Fixpoint universal_newlines (s : string) : string :=
  match s with
  | EmptyString => EmptyString
  | String c s' =>
      if bool_decide (c = CR) then
        match s' with
        | String c' s'' =>
            if bool_decide (c' = LF) then String LF (universal_newlines s'')
            else String LF (universal_newlines s')
        | EmptyString => String LF EmptyString
        end
      else String c (universal_newlines s')
  end.

(** Iterating over text: each line ends after its line feed, which it
    keeps; the last line may have none. *)
Fixpoint lines (s : string) : list string :=
  match s with
  | EmptyString => []
  | String c s' =>
      if bool_decide (c = LF) then String c EmptyString :: lines s'
      else match lines s' with
           | [] => [String c EmptyString]
           | l :: ls => String c l :: ls
           end
  end.

(** The lines [for line in f] yields for a file of content [content]. *)
Definition iter (content : string) : list string :=
  lines (universal_newlines content).

End File.

(** One iteration of the loop of [load_transcript]. *)
Definition load_step (segments : list segment) (line : string)
  : result (list segment) :=
  let line := Str.strip line in
  if bool_decide (line = "") then Ok segments
  else
    '(timerange, text) ← unpack2 (Str.split1 ":" line);
    Ok (segments ++ [(Str.strip timerange, Str.strip text)]).

(** The file system is a map from paths to the text of the files. *)
Definition load_transcript (fs : gmap string string) (path : string)
  : result (list segment) :=
  match fs !! path with
  | None => Raise FileNotFoundError
  | Some content => for_each load_step [] (File.iter content)
  end.

(** ** [filter_claims] *)

(** An entity is a pair (text, label); a tagged sentence is a triple
    (timerange, sentence, entities). *)
Abbreviation entity := (string * string)%type (only parsing).
Abbreviation tagged := (string * string * list (string * string))%type (only parsing).

(** [\b(calories?|pound(s)?|weight|energy)\b] with [re.IGNORECASE] *)
Definition KEYWORD_PATTERN : pattern :=
  Pattern
    (Seq WordB
       (Seq (Group (Alt (Seq (Re.word "calorie") (Opt (Lit "s")))
                   (Alt (Seq (Re.word "pound") (Opt (Group (Lit "s"))))
                   (Alt (Re.word "weight") (Re.word "energy")))))
          WordB))
    true.

Definition DEFAULT_LABELS : gset string :=
  {[ "QUANTITY"; "CARDINAL"; "PERCENT" ]}.

Definition has_label (allowed_labels : gset string) (ents : list entity) : bool :=
  existsb (fun '(_, label) => bool_decide (label ∈ allowed_labels)) ents.

(** One iteration of the loop of [filter_claims]. *)
Definition filter_step (allowed_labels : gset string) (keyword_pattern : pattern)
    (claims : list tagged) (item : tagged) : list tagged :=
  let '(timerange, sent, ents) := item in
  let has_numeric := has_label allowed_labels ents in
  let has_keyword := re_search keyword_pattern sent in
  if has_numeric || has_keyword then claims ++ [(timerange, sent, ents)]
  else claims.

(** An argument left out, or given as [None], is [None] here. *)
Definition filter_claims (entity_results : list tagged)
    (allowed_labels : option (gset string)) (keyword_pattern : option pattern)
  : list tagged :=
  let allowed_labels :=
    match allowed_labels with None => DEFAULT_LABELS | Some l => l end in
  let keyword_pattern :=
    match keyword_pattern with None => KEYWORD_PATTERN | Some p => p end in
  foldl (filter_step allowed_labels keyword_pattern) [] entity_results.

(** ** The vocabulary of the specification *)

Module Spec.

(** [s] starts with [p]. *)
Definition starts_with (p s : string) : Prop := ∃ rest, s = p +:+ rest.

(** [s] contains [w] as a whole word, case-insensitively: an occurrence of
    [w] up to the case of its letters, with no word character next to it
    on either side. *)
Definition whole_word_ci (w s : string) : Prop :=
  ∃ pre mid post,
    s = pre +:+ mid +:+ post
    ∧ Str.lower mid = Str.lower w
    ∧ Re.word_side (Str.last pre) = false
    ∧ Re.word_side (Re.head post) = false.

Definition INTROS : list string := ["one of"; "that's"; "thats"; "my name"].

Definition VERBS : list string :=
  ["lose"; "gain"; "burn"; "get"; "make"; "makes"; "is"; "will"; "can"; "do"].

Definition KEYWORDS : list string :=
  ["calorie"; "calories"; "pound"; "pounds"; "weight"; "energy"].

Definition NUMERIC_LABELS : list string := ["QUANTITY"; "CARDINAL"; "PERCENT"].

(** The lowercased sentence starts like an introduction. *)
Definition intro_start (sent : string) : Prop :=
  ∃ p, p ∈ INTROS ∧ starts_with p (Str.lower sent).

(** The sentence has one of the assertion verbs as a whole word. *)
Definition has_verb (sent : string) : Prop :=
  ∃ v, v ∈ VERBS ∧ whole_word_ci v sent.

(** The two disjuncts of the broad filter. *)
Definition has_numeric (ents : list entity) : Prop :=
  ∃ e, e ∈ ents ∧ e.2 ∈ NUMERIC_LABELS.

Definition has_keyword (sent : string) : Prop :=
  ∃ w, w ∈ KEYWORDS ∧ whole_word_ci w sent.

(** A line of the transcript that is not blank. *)
Definition nonblank (line : string) : bool :=
  negb (bool_decide (Str.strip line = "")).

(** The segment of a line: its parts before and after the first colon,
    stripped. *)
Definition parse_line (line : string) : segment :=
  (Str.strip (Str.before ":" line), Str.strip (Str.after ":" line)).

(** A time range with its delimiter. *)
Definition well_formed (seg : segment) : Prop := Str.mem "-" seg.1 = true.

(** The text of the segment does not start with a lowercase letter. *)
Definition starts_fresh (seg : segment) : Prop := Str.head_islower seg.2 = false.

End Spec.

(** ** The words of a pattern

    A regex without anchors matches the strings of a finite list, up to
    case; [eat] consumes one of them at a position. *)

Module Lang.

Fixpoint plain (r : regex) : bool :=
  match r with
  | Eps | Lit _ => true
  | Seq r1 r2 | Alt r1 r2 => plain r1 && plain r2
  | Opt r1 | Group r1 => plain r1
  | Bol | WordB => false
  end.

Fixpoint words (r : regex) : list string :=
  match r with
  | Eps => [""]
  | Lit c => [String c ""]
  | Seq r1 r2 => w1 ← words r1; (fun w2 => w1 +:+ w2) <$> words r2
  | Alt r1 r2 => words r1 ++ words r2
  | Opt r1 => words r1 ++ [""]
  | Group r1 => words r1
  | Bol | WordB => []
  end.

Fixpoint eat (ic : bool) (w : string) (prev : option ascii) (s : string)
  : option (option ascii * string) :=
  match w with
  | EmptyString => Some (prev, s)
  | String c w' =>
      match s with
      | String a s' => if Re.lit_eq ic c a then eat ic w' (Some a) s' else None
      | EmptyString => None
      end
  end.

(** What the continuation [k] says after [w] has been consumed. *)
Definition after_word (ic : bool) (prev : option ascii) (s : string)
    (k : option ascii -> string -> bool) (w : string) : bool :=
  match eat ic w prev s with
  | Some (p, t) => k p t
  | None => false
  end.

(** The pattern [\b(g)\b]. *)
Definition bounded (g : regex) : regex := Seq WordB (Seq (Group g) WordB).

(** A word that starts and ends with a word character. *)
Definition wordy (w : string) : bool :=
  Re.word_side (Re.head w) && Re.word_side (Str.last w).

End Lang.

(** ** The collaborators: spaCy and Whisper

    [nlp(text)] is a document whose [sents] and [ents] are spans; the code
    reads the [text] of a sentence span and the [text] and [label_] of an
    entity span.  The language model is an argument of the functions that
    use it. *)

Module Spacy.

Record Span : Type := { text : string; label_ : string }.

Record Doc : Type := { sents : list Span; ents : list Span }.

End Spacy.

(** ** [split_sentences] and [extract_entities] *)

Definition split_sentences (nlp : string -> Spacy.Doc)
    (segments : list (string * string)) : list (string * string) :=
  foldl (fun sentences '(timerange, text) =>
           let doc := nlp text in
           foldl (fun sentences sent => sentences ++ [(timerange, Spacy.text sent)])
             sentences (Spacy.sents doc))
    [] segments.

Definition extract_entities (nlp : string -> Spacy.Doc)
    (sentences : list (string * string))
  : list (string * string * list (string * string)) :=
  foldl (fun results '(timerange, sent) =>
           let doc := nlp sent in
           let ents := (fun ent => (Spacy.text ent, Spacy.label_ ent)) <$> Spacy.ents doc in
           results ++ [(timerange, sent, ents)])
    [] sentences.

(** ** The script of [claim_extract.py]

    What the [__main__] block computes as [final_claims] from the file at
    [path], once the language model is loaded and when its calls return;
    what it prints on the way is left out. *)

Definition claim_extract_main (nlp : string -> Spacy.Doc)
    (fs : gmap string string) (path : string)
  : result (list (string * string * list (string * string))) :=
  segments ← load_transcript fs path;
  segments ← merge_segments segments;
  let sentences := split_sentences nlp segments in
  let entity_results := extract_entities nlp sentences in
  let claims := filter_claims entity_results None None in
  let final_claims :=
    List.filter (fun '(t, s, e) => is_strong_claim s) claims in
  Ok final_claims.

(** ** [transcribe_audio] ([download_and_transcribe.py])

    A segment of the transcription result has a [start], an [end] and a
    [text].  The two times are numbers the code formats with one decimal;
    their type and that formatting are arguments here. *)

Module Whisper.

Record Segment (T : Type) : Type := { start : T; end_ : T; text : string }.
Arguments start {T} s.
Arguments end_ {T} s.
Arguments text {T} s.

End Whisper.

Module FileOut.

(** Writing in text mode with the default [newline=None]: every line feed
    is written as the line separator of the platform. *)
Fixpoint write_text (linesep : string) (s : string) : string :=
  match s with
  | EmptyString => EmptyString
  | String c s' =>
      if bool_decide (c = File.LF) then linesep +:+ write_text linesep s'
      else String c (write_text linesep s')
  end.

End FileOut.

(** The line [transcribe_audio] writes for a segment. *)
Definition transcript_line {T : Type} (fmt : T -> string) (seg : Whisper.Segment T)
  : string :=
  fmt (Whisper.start seg) +:+ "-" +:+ fmt (Whisper.end_ seg) +:+ ": "
  +:+ Whisper.text seg +:+ String File.LF "".

(** The file system after [transcribe_audio] has written the segments of
    the transcription result to [transcript_path]; [linesep] is
    [os.linesep]. *)
Definition transcribe_audio {T : Type} (fmt : T -> string) (linesep : string)
    (segments : list (Whisper.Segment T)) (transcript_path : string)
    (fs : gmap string string) : gmap string string :=
  let written :=
    foldl (fun f seg => f +:+ FileOut.write_text linesep (transcript_line fmt seg))
      "" segments in
  <[transcript_path := written]> fs.

(** ** More vocabulary *)

Module Vocab.

(** [sep.join(l)] *)
Fixpoint join (sep : string) (l : list string) : string :=
  match l with
  | [] => ""
  | [x] => x
  | x :: l' => x +:+ sep +:+ join sep l'
  end.

Fixpoint forallb (f : ascii -> bool) (s : string) : bool :=
  match s with
  | EmptyString => true
  | String c s' => f c && forallb f s'
  end.

(** A formatted time: no white space and no colon in it. *)
Definition timestamp (s : string) : bool :=
  forallb (fun c => negb (Char.isspace c) && negb (bool_decide (c = ":"%char))) s.

(** A text without a line break. *)
Definition one_line (s : string) : bool :=
  negb (Str.mem File.LF s) && negb (Str.mem File.CR s).

(** A segment whose formatted times and text make one line of the
    transcript. *)
Definition writable {T : Type} (fmt : T -> string) (seg : Whisper.Segment T) : Prop :=
  timestamp (fmt (Whisper.start seg)) = true
  ∧ timestamp (fmt (Whisper.end_ seg)) = true
  ∧ one_line (Whisper.text seg) = true.

(** The literals of a regex are in lowercase. *)
Fixpoint lower_literals (r : regex) : bool :=
  match r with
  | Lit c => bool_decide (Char.lower c = c)
  | Seq r1 r2 | Alt r1 r2 => lower_literals r1 && lower_literals r2
  | Opt r1 | Group r1 => lower_literals r1
  | Eps | Bol | WordB => true
  end.

(** The entities of a sentence, as [extract_entities] lists them. *)
Definition ents_of (nlp : string -> Spacy.Doc) (sent : string)
  : list (string * string) :=
  (fun ent => (Spacy.text ent, Spacy.label_ ent)) <$> Spacy.ents (nlp sent).

(** The parameters [filter_claims] works with: the argument, or the default
    when the argument is [None]. *)
Definition labels_of (allowed_labels : option (gset string)) : gset string :=
  match allowed_labels with None => DEFAULT_LABELS | Some l => l end.

Definition pattern_of (keyword_pattern : option pattern) : pattern :=
  match keyword_pattern with None => KEYWORD_PATTERN | Some p => p end.

(** The test of the loop of [filter_claims]. *)
Definition passes (allowed_labels : gset string) (keyword_pattern : pattern)
    (item : string * string * list (string * string)) : bool :=
  has_label allowed_labels item.2 || re_search keyword_pattern item.1.2.

End Vocab.

(** [is_strong_claim] with patterns compiled without [re.IGNORECASE]. *)
Definition is_strong_claim_cased (sent : string) : bool :=
  let sent_l := Str.lower sent in
  if re_match (Pattern (source INTRO_PATTERN) false) sent_l then false
  else re_search (Pattern (source VERB_PATTERN) false) sent_l.

(** ** Beyond Latin-1: the letters [re.IGNORECASE] equates with s and i

    Two letters outside Latin-1 are their own lowercase form and match an
    ASCII letter under [re.IGNORECASE]: the long s (U+017F), which matches
    s, and the dotless i (U+0131), which matches i.  [Wide] is the alphabet
    with these two letters added, and [is_strong_claim] on it. *)

Module Wide.

Inductive uchar : Type :=
| Latin (a : ascii)          (* a code point below 256 *)
| LongS                      (* U+017F *)
| DotlessI.                  (* U+0131 *)

(** [c.lower()]: the two letters are lowercase letters. *)
Definition lower_char (c : uchar) : uchar :=
  match c with
  | Latin a => Latin (Char.lower a)
  | LongS => LongS
  | DotlessI => DotlessI
  end.

(** [s.lower()] *)
Definition lower (s : list uchar) : list uchar := lower_char <$> s.

(** The class [\w]: the two letters are alphanumeric. *)
Definition isword (c : uchar) : bool :=
  match c with
  | Latin a => Char.isword a
  | LongS | DotlessI => true
  end.

Definition word_side (c : option uchar) : bool :=
  match c with
  | Some a => isword a
  | None => false
  end.

(** A literal of the pattern against a character of the subject.  Under
    [re.IGNORECASE] a literal s or S also matches the long s, and a literal
    i or I the dotless i; without the flag a literal matches itself only. *)
Definition lit_eq (ic : bool) (c : ascii) (a : uchar) : bool :=
  match a with
  | Latin x => Re.lit_eq ic c x
  | LongS => ic && bool_decide (Char.lower c = "s"%char)
  | DotlessI => ic && bool_decide (Char.lower c = "i"%char)
  end.

(** The matcher of [Re.run] on this alphabet. *)
Fixpoint run (ic : bool) (r : regex) (prev : option uchar) (s : list uchar)
    (k : option uchar -> list uchar -> bool) : bool :=
  match r with
  | Eps => k prev s
  | Lit c =>
      match s with
      | a :: s' => if lit_eq ic c a then k (Some a) s' else false
      | [] => false
      end
  | Seq r1 r2 => run ic r1 prev s (fun p t => run ic r2 p t k)
  | Alt r1 r2 => run ic r1 prev s k || run ic r2 prev s k
  | Opt r1 => run ic r1 prev s k || k prev s
  | Group r1 => run ic r1 prev s k
  | Bol => match prev with None => k prev s | Some _ => false end
  | WordB =>
      if xorb (word_side prev) (word_side (head s)) then k prev s else false
  end.

Definition accept : option uchar -> list uchar -> bool := fun _ _ => true.

Fixpoint scan (ic : bool) (r : regex) (prev : option uchar) (s : list uchar) : bool :=
  run ic r prev s accept
  || match s with
     | [] => false
     | a :: s' => scan ic r (Some a) s'
     end.

Definition re_match (p : pattern) (s : list uchar) : bool :=
  run (ignorecase p) (source p) None s accept.

Definition re_search (p : pattern) (s : list uchar) : bool :=
  scan (ignorecase p) (source p) None s.

Definition is_strong_claim (sent : list uchar) : bool :=
  let sent_l := lower sent in
  if re_match INTRO_PATTERN sent_l then false
  else re_search VERB_PATTERN sent_l.

(** [is_strong_claim] with patterns compiled without [re.IGNORECASE]. *)
Definition is_strong_claim_cased (sent : list uchar) : bool :=
  let sent_l := lower sent in
  if re_match (Pattern (source INTRO_PATTERN) false) sent_l then false
  else re_search (Pattern (source VERB_PATTERN) false) sent_l.

(** A Latin-1 string on this alphabet. *)
Fixpoint embed (s : string) : list uchar :=
  match s with
  | EmptyString => []
  | String c s' => Latin c :: embed s'
  end.

(** The vocabulary of the specification on this alphabet. *)
Definition starts_with (p s : list uchar) : Prop := ∃ rest, s = p ++ rest.

Definition whole_word_ci (w s : list uchar) : Prop :=
  ∃ pre mid post,
    s = pre ++ mid ++ post
    ∧ lower mid = lower w
    ∧ word_side (last pre) = false
    ∧ word_side (head post) = false.

Definition intro_start (sent : list uchar) : Prop :=
  ∃ p, p ∈ Spec.INTROS ∧ starts_with (embed p) (lower sent).

Definition has_verb (sent : list uchar) : Prop :=
  ∃ v, v ∈ Spec.VERBS ∧ whole_word_ci (embed v) sent.


Definition it_is_long_s : list uchar :=
  embed "it i" ++ [LongS] ++ embed " good".

End Wide.

(** * Properties *)

(** ** Strings *)

Section StringFacts.

Local Arguments String.append : simpl nomatch.

Lemma str_app_nil_r (s : string) : s +:+ "" = s.
Proof. induction s as [|c s IH]; simpl; [done | by rewrite IH]. Qed.

Lemma str_app_assoc (s t u : string) : (s +:+ t) +:+ u = s +:+ t +:+ u.
Proof. induction s as [|c s IH]; simpl; [done | by rewrite IH]. Qed.

Lemma str_app_length (s t : string) :
  String.length (s +:+ t) = String.length s + String.length t.
Proof. induction s as [|c s IH]; simpl; [done | by rewrite IH]. Qed.

(** Two concatenations with left parts of one length have equal parts. *)
Lemma str_app_inj_length (s1 s2 t1 t2 : string) :
  String.length s1 = String.length s2 →
  s1 +:+ t1 = s2 +:+ t2 → s1 = s2 ∧ t1 = t2.
Proof.
  revert s2; induction s1 as [|c s1 IH]; intros [|c2 s2] Hlen Heq;
    simplify_eq/=; [done|].
  destruct (IH s2) as [-> ->]; auto.
Qed.

Lemma str_mem_app (c : ascii) (s t : string) :
  Str.mem c (s +:+ t) = Str.mem c s || Str.mem c t.
Proof.
  induction s as [|a s IH]; simpl; [done|]. by rewrite IH, orb_assoc.
Qed.

Lemma split1_found (sep : ascii) (s : string) :
  Str.mem sep s = true → Str.split1 sep s = [Str.before sep s; Str.after sep s].
Proof.
  induction s as [|c s IH]; simpl; [done|].
  case_bool_decide; simpl; [done|]. intros Hm. by rewrite (IH Hm).
Qed.

Lemma split1_missing (sep : ascii) (s : string) :
  Str.mem sep s = false → Str.split1 sep s = [s].
Proof.
  induction s as [|c s IH]; simpl; [done|].
  case_bool_decide; simpl; [done|]. intros Hm. by rewrite (IH Hm).
Qed.

(** [before] and [after] cut the string around the first separator. *)
Lemma before_after (sep : ascii) (s : string) :
  Str.mem sep s = true →
  s = Str.before sep s +:+ String sep (Str.after sep s)
  ∧ Str.mem sep (Str.before sep s) = false.
Proof.
  induction s as [|c s IH]; simpl; [done|].
  case_bool_decide as Hc; simpl.
  - by subst.
  - intros Hm. destruct (IH Hm) as [Hs Hb]. split; [by rewrite <- Hs|].
    by rewrite bool_decide_eq_false_2.
Qed.

Lemma cut_unique (sep : ascii) (a b : string) :
  Str.mem sep a = false →
  Str.before sep (a +:+ String sep b) = a ∧ Str.after sep (a +:+ String sep b) = b.
Proof.
  induction a as [|c a IH]; simpl.
  - by rewrite bool_decide_eq_true_2.
  - case_bool_decide; simpl; [done|]. intros Hm.
    destruct (IH Hm) as [-> ->]. done.
Qed.

End StringFacts.

(** ** The loop *)

Lemma for_each_app {S A : Type} (body : S → A → result S) (st : S) (xs ys : list A) :
  for_each body st (xs ++ ys) = st' ← for_each body st xs; for_each body st' ys.
Proof.
  revert st; induction xs as [|x xs IH]; intros st; simpl; [done|].
  destruct (body st x) as [st'|e]; simpl; [apply IH | done].
Qed.

Lemma for_each_snoc {S A : Type} (body : S → A → result S) (st st' : S)
    (xs : list A) (x : A) :
  for_each body st xs = Ok st' →
  for_each body st (xs ++ [x]) = body st' x.
Proof.
  intros H. rewrite for_each_app, H. simpl. by destruct (body st' x).
Qed.

(** ** [merge_segments] *)

(** The three outcomes of an iteration that folds. *)
Lemma merge_step_fold (out : list segment) (prev_range prev_text timerange text : string) :
  Str.head_islower text = true →
  merge_step (out ++ [(prev_range, prev_text)]) (timerange, text) =
    if Str.mem "-" prev_range then
      if Str.mem "-" timerange then
        Ok (out ++ [(Str.before "-" prev_range +:+ "-" +:+ Str.after "-" timerange,
                     prev_text +:+ " " +:+ text)])
      else Raise IndexError
    else Raise ValueError.
Proof.
  intros Hlow. unfold merge_step.
  assert (text ≠ "") as Hne by (intros ->; done).
  rewrite Hlow, (bool_decide_eq_true_2 _ Hne), bool_decide_eq_true_2
    by (by destruct out).
  simpl. rewrite last_snoc.
  destruct (Str.mem "-" prev_range) eqn:Hp.
  - rewrite (split1_found _ _ Hp). simpl.
    destruct (Str.mem "-" timerange) eqn:Ht.
    + rewrite (split1_found _ _ Ht). simpl. f_equal.
      rewrite length_app. simpl.
      rewrite insert_app_r_alt by lia.
      replace (length out + 1 - 1 - length out) with 0 by lia. done.
    + rewrite (split1_missing _ _ Ht). done.
  - rewrite (split1_missing _ _ Hp). done.
Qed.

(** An iteration on a text that does not start lowercase appends. *)
Lemma merge_step_fresh (merged : list segment) (timerange text : string) :
  Str.head_islower text = false →
  merge_step merged (timerange, text) = Ok (merged ++ [(timerange, text)]).
Proof.
  intros H. unfold merge_step. rewrite H. by rewrite andb_false_r.
Qed.

Lemma merge_step_first (seg : segment) : merge_step [] seg = Ok [seg].
Proof.
  destruct seg as [timerange text]. unfold merge_step.
  by rewrite andb_false_r.
Qed.

Lemma for_each_fresh (acc segs : list (string * string)) :
  Forall Spec.starts_fresh segs →
  for_each merge_step acc segs = Ok (acc ++ segs).
Proof.
  intros H; revert acc.
  induction H as [|[timerange text] segs Hseg _ IH]; intros acc; cbn [for_each].
  - by rewrite app_nil_r.
  - unfold Spec.starts_fresh in Hseg; simpl in Hseg.
    rewrite (merge_step_fresh _ _ _ Hseg). simpl.
    rewrite IH. by rewrite <- app_assoc.
Qed.

(** Every time range of the output has its delimiter when every time range
    of the input has. *)
Lemma merge_step_well_formed (merged : list (string * string)) (seg : string * string) :
  Forall Spec.well_formed merged → Spec.well_formed seg →
  ∃ merged', merge_step merged seg = Ok merged' ∧ Forall Spec.well_formed merged'.
Proof.
  intros Hm Hs. destruct seg as [timerange text].
  destruct (Str.head_islower text) eqn:Hlow.
  - destruct merged as [|[prev_range prev_text] merged _] using rev_ind.
    + exists [(timerange, text)]. split; [apply merge_step_first | by constructor].
    + apply Forall_app in Hm as [Hm Hp]. apply Forall_inv in Hp.
      unfold Spec.well_formed in Hp, Hs; simpl in Hp, Hs.
      eexists; split.
      { rewrite (merge_step_fold _ _ _ _ _ Hlow), Hp, Hs. reflexivity. }
      apply Forall_app; split; [done|].
      apply Forall_singleton. unfold Spec.well_formed; simpl.
      rewrite !str_mem_app. simpl. by rewrite orb_true_r.
  - exists (merged ++ [(timerange, text)]).
    split; [by apply merge_step_fresh|].
    apply Forall_app; split; [done|]. by apply Forall_singleton.
Qed.

Lemma for_each_well_formed (acc segs : list (string * string)) :
  Forall Spec.well_formed acc → Forall Spec.well_formed segs →
  ∃ out, for_each merge_step acc segs = Ok out ∧ Forall Spec.well_formed out.
Proof.
  intros Hacc Hsegs; revert acc Hacc.
  induction Hsegs as [|seg segs Hseg _ IH]; intros acc Hacc; simpl.
  - by exists acc.
  - destruct (merge_step_well_formed acc seg Hacc Hseg) as (acc' & Hstep & Hacc').
    destruct (IH acc' Hacc') as (out & Hout & Hwf).
    exists out. by rewrite Hstep.
Qed.

(** A time range "start-end" has its delimiter, and is cut into its start
    and its end. *)
Lemma range_parts (start_ end_ : string) :
  Str.mem "-" start_ = false →
  Str.mem "-" (start_ +:+ "-" +:+ end_) = true
  ∧ Str.before "-" (start_ +:+ "-" +:+ end_) = start_
  ∧ Str.after "-" (start_ +:+ "-" +:+ end_) = end_.
Proof.
  intros H. change (start_ +:+ "-" +:+ end_) with (start_ +:+ String "-" end_).
  split; [|by apply cut_unique].
  rewrite str_mem_app. simpl. by rewrite orb_true_r.
Qed.

(** C1: merge_segments folds a segment whose text begins with a lowercase
    letter into the last segment of the output built so far: the new time
    range runs from the start of that segment's range to the end of the
    current segment's range, and the new text is the previous text, one
    space and the current text.  Merging therefore cascades: the three
    segments "10-12: Hello", "12-14: world", "14-16: today" become the
    single segment "10-16: Hello world today". *)
Theorem merge_segments_folds :
  (∀ (segs out : list (string * string))
     (start_prev end_prev prev_text start_curr end_curr text : string),
     Str.mem "-" start_prev = false →
     Str.mem "-" start_curr = false →
     merge_segments segs
     = Ok (out ++ [(start_prev +:+ "-" +:+ end_prev, prev_text)]) →
     Str.head_islower text = true →
     merge_segments (segs ++ [(start_curr +:+ "-" +:+ end_curr, text)])
     = Ok (out ++ [(start_prev +:+ "-" +:+ end_curr, prev_text +:+ " " +:+ text)]))
  ∧ merge_segments [("10-12", "Hello"); ("12-14", "world"); ("14-16", "today")]
    = Ok [("10-16", "Hello world today")].
Proof.
  split; [|by vm_compute].
  intros segs out start_prev end_prev prev_text start_curr end_curr text
    Hp Hc Hrun Hlow.
  unfold merge_segments in *. rewrite (for_each_snoc _ _ _ _ _ Hrun).
  rewrite (merge_step_fold _ _ _ _ _ Hlow).
  destruct (range_parts start_prev end_prev Hp) as (-> & -> & _).
  destruct (range_parts start_curr end_curr Hc) as (-> & _ & ->).
  done.
Qed.

Lemma merge_segments_folds_witness :
  merge_segments ([("10-12", "Hello"); ("12-14", "world")] ++ [("14-16", "today")])
  = Ok ([] ++ [("10-16", "Hello world today")]).
Proof.
  exact (proj1 merge_segments_folds
           [("10-12", "Hello"); ("12-14", "world")] [] "10" "14" "Hello world"
           "14" "16" "today" eq_refl eq_refl eq_refl eq_refl).
Defined.

(** C5: on a list in which no text starts with a lowercase letter,
    merge_segments returns its input. *)
Theorem merge_segments_identity (segs : list (string * string)) :
  Forall Spec.starts_fresh segs → merge_segments segs = Ok segs.
Proof. intros H. unfold merge_segments. by rewrite (for_each_fresh [] segs H). Qed.

Lemma merge_segments_identity_witness :
  merge_segments [("0.0-1.5", "Hello"); ("1.5-2.0", ""); ("2.0-3.0", "200 calories")]
  = Ok [("0.0-1.5", "Hello"); ("1.5-2.0", ""); ("2.0-3.0", "200 calories")].
Proof.
  apply merge_segments_identity. repeat constructor.
Defined.

(** C6: the first segment is never folded: the first iteration leaves the
    output with that segment alone whatever the case of its text, so a
    one-element list is returned as it is; and a segment with an empty text
    is appended as an entry of its own. *)
Theorem merge_segments_first :
  (∀ (seg : string * string) (rest : list (string * string)),
     merge_segments (seg :: rest) = for_each merge_step [seg] rest)
  ∧ (∀ timerange text : string,
       merge_segments [(timerange, text)] = Ok [(timerange, text)])
  ∧ (∀ (segs out : list (string * string)) (timerange : string),
       merge_segments segs = Ok out →
       merge_segments (segs ++ [(timerange, "")]) = Ok (out ++ [(timerange, "")])).
Proof.
  unfold merge_segments. split_and!.
  - intros seg rest. cbn [for_each]. by rewrite merge_step_first.
  - intros timerange text. cbn [for_each]. by rewrite merge_step_first.
  - intros segs out timerange Hrun. rewrite (for_each_snoc _ _ _ _ _ Hrun).
    by apply merge_step_fresh.
Qed.

Lemma merge_segments_first_witness :
  merge_segments ([("0-1", "Hello")] ++ [("1-2", "")])
  = Ok ([("0-1", "Hello")] ++ [("1-2", "")]).
Proof.
  exact (proj2 (proj2 merge_segments_first) [("0-1", "Hello")] [("0-1", "Hello")]
           "1-2" eq_refl).
Defined.

(** C9: merge_segments returns a result on every list whose time ranges all
    contain a '-'.  When a fold is triggered and the range of the previous
    output segment has no '-', unpacking its start raises ValueError; when
    that range has one and the range of the current segment has none,
    subscripting its end raises IndexError. *)
Theorem merge_segments_total :
  (∀ segs : list (string * string),
     Forall Spec.well_formed segs → ∃ out, merge_segments segs = Ok out)
  ∧ (∀ (segs out : list (string * string)) (prev_range prev_text timerange text : string),
       merge_segments segs = Ok (out ++ [(prev_range, prev_text)]) →
       Str.head_islower text = true →
       Str.mem "-" prev_range = false →
       merge_segments (segs ++ [(timerange, text)]) = Raise ValueError)
  ∧ (∀ (segs out : list (string * string)) (prev_range prev_text timerange text : string),
       merge_segments segs = Ok (out ++ [(prev_range, prev_text)]) →
       Str.head_islower text = true →
       Str.mem "-" prev_range = true →
       Str.mem "-" timerange = false →
       merge_segments (segs ++ [(timerange, text)]) = Raise IndexError).
Proof.
  unfold merge_segments. split_and!.
  - intros segs Hwf.
    destruct (for_each_well_formed [] segs) as (out & Hout & _); [done..|].
    by exists out.
  - intros segs out prev_range prev_text timerange text Hrun Hlow Hp.
    rewrite (for_each_snoc _ _ _ _ _ Hrun).
    by rewrite (merge_step_fold _ _ _ _ _ Hlow), Hp.
  - intros segs out prev_range prev_text timerange text Hrun Hlow Hp Ht.
    rewrite (for_each_snoc _ _ _ _ _ Hrun).
    by rewrite (merge_step_fold _ _ _ _ _ Hlow), Hp, Ht.
Qed.

Lemma merge_segments_total_witness :
  (∃ out, merge_segments [("10-12", "Hello"); ("12-14", "world")] = Ok out)
  ∧ merge_segments ([("1012", "Hello")] ++ [("12-14", "world")]) = Raise ValueError
  ∧ merge_segments ([("10-12", "Hello")] ++ [("1214", "world")]) = Raise IndexError.
Proof.
  split_and!.
  - apply (proj1 merge_segments_total). repeat constructor.
  - exact (proj1 (proj2 merge_segments_total) [("1012", "Hello")] [] "1012" "Hello"
             "12-14" "world" eq_refl eq_refl eq_refl).
  - exact (proj2 (proj2 merge_segments_total) [("10-12", "Hello")] [] "10-12" "Hello"
             "1214" "world" eq_refl eq_refl eq_refl eq_refl).
Defined.

(** C10: a segment with an empty text can be folded into: when it has been
    appended and the text of the next segment starts with a lowercase
    letter, the next segment is folded into it and the merged text is one
    space followed by the text of the next segment. *)
Theorem empty_text_is_fold_target
    (segs out : list (string * string))
    (start_empty end_empty start_curr end_curr text : string) :
  Str.mem "-" start_empty = false →
  Str.mem "-" start_curr = false →
  merge_segments segs = Ok out →
  Str.head_islower text = true →
  merge_segments (segs ++ [(start_empty +:+ "-" +:+ end_empty, "");
                           (start_curr +:+ "-" +:+ end_curr, text)])
  = Ok (out ++ [(start_empty +:+ "-" +:+ end_curr, " " +:+ text)]).
Proof.
  intros He Hc Hrun Hlow. unfold merge_segments in *.
  rewrite for_each_app, Hrun. cbn [mbind result_bind for_each].
  rewrite merge_step_fresh by done. cbn [mbind result_bind].
  rewrite (merge_step_fold _ _ _ _ _ Hlow).
  destruct (range_parts start_empty end_empty He) as (-> & -> & _).
  destruct (range_parts start_curr end_curr Hc) as (-> & _ & ->).
  done.
Qed.

Lemma empty_text_is_fold_target_witness :
  merge_segments ([("8-10", "Hi.")] ++ [("10-12", ""); ("12-14", "world")])
  = Ok ([("8-10", "Hi.")] ++ [("10-14", " world")]).
Proof.
  exact (empty_text_is_fold_target [("8-10", "Hi.")] [("8-10", "Hi.")]
           "10" "12" "12" "14" "world" eq_refl eq_refl eq_refl eq_refl).
Defined.

(** ** Characters and case *)

Lemma lower_char_idem (c : ascii) : Char.lower (Char.lower c) = Char.lower c.
Proof. destruct c as [[] [] [] [] [] [] [] []]; vm_compute; reflexivity. Qed.

Lemma isword_lower (c : ascii) : Char.isword (Char.lower c) = Char.isword c.
Proof. destruct c as [[] [] [] [] [] [] [] []]; vm_compute; reflexivity. Qed.

Lemma word_side_lower (o : option ascii) :
  Re.word_side (Char.lower <$> o) = Re.word_side o.
Proof. destruct o as [c|]; simpl; [apply isword_lower | done]. Qed.

Section CaseFacts.

Local Arguments String.append : simpl nomatch.

Lemma lower_app (s t : string) :
  Str.lower (s +:+ t) = Str.lower s +:+ Str.lower t.
Proof.
  unfold Str.lower. induction s as [|c s IH]; simpl; [done | by rewrite IH].
Qed.

Lemma lower_idem (s : string) : Str.lower (Str.lower s) = Str.lower s.
Proof.
  unfold Str.lower. induction s as [|c s IH]; simpl; [done|].
  by rewrite IH, lower_char_idem.
Qed.

Lemma lower_length (s : string) : String.length (Str.lower s) = String.length s.
Proof.
  unfold Str.lower. induction s as [|c s IH]; simpl; [done | by rewrite IH].
Qed.

(** A cut of the lowercase form of [s] is the lowercase form of a cut of [s]. *)
Lemma lower_split (s a b : string) :
  Str.lower s = a +:+ b →
  ∃ a' b', s = a' +:+ b' ∧ Str.lower a' = a ∧ Str.lower b' = b.
Proof.
  revert s; induction a as [|c a IH]; intros s H.
  - exists "", s. done.
  - destruct s as [|c' s]; simpl in H; [done|]. injection H as Hc Hs.
    destruct (IH s Hs) as (a' & b' & -> & Ha & Hb).
    exists (String c' a'), b'. simpl. unfold Str.lower in *. simpl.
    by rewrite Hc, Ha.
Qed.

(** A part of a string in lowercase is in lowercase. *)
Lemma lower_part (s m rest : string) :
  Str.lower s = m +:+ rest → Str.lower m = m.
Proof.
  intros H. pose proof (lower_idem s) as Hi.
  rewrite H, lower_app in Hi.
  by destruct (str_app_inj_length _ _ _ _ (lower_length m) Hi).
Qed.

Lemma last_or_app (d : option ascii) (s t : string) :
  Str.last_or d (s +:+ t) = Str.last_or (Str.last_or d s) t.
Proof. revert d; induction s as [|c s IH]; intros d; simpl; [done | apply IH]. Qed.

Lemma head_app (s t : string) :
  s ≠ "" → Re.head (s +:+ t) = Re.head s.
Proof. by destruct s. Qed.

Lemma word_side_head_lower (s : string) :
  Re.word_side (Re.head (Str.lower s)) = Re.word_side (Re.head s).
Proof. destruct s as [|c s]; simpl; [done | apply isword_lower]. Qed.

Lemma word_side_last_lower (d : option ascii) (s : string) :
  Re.word_side (Str.last_or (Char.lower <$> d) (Str.lower s))
  = Re.word_side (Str.last_or d s).
Proof.
  revert d; induction s as [|c s IH]; intros d; simpl.
  - apply word_side_lower.
  - apply (IH (Some c)).
Qed.

Lemma word_side_str_last_lower (s : string) :
  Re.word_side (Str.last (Str.lower s)) = Re.word_side (Str.last s).
Proof. exact (word_side_last_lower None s). Qed.

End CaseFacts.

(** ** The matcher *)

Lemma run_ext (ic : bool) (r : regex) (prev : option ascii) (s : string)
    (k k' : option ascii → string → bool) :
  (∀ p t, k p t = k' p t) → Re.run ic r prev s k = Re.run ic r prev s k'.
Proof.
  revert prev s k k'.
  induction r as [|c|r1 IH1 r2 IH2|r1 IH1 r2 IH2|r1 IH1|r1 IH1| |];
    intros prev s k k' Hk; simpl.
  - apply Hk.
  - destruct s as [|a s]; [done|]. by rewrite Hk.
  - apply IH1. intros p t. by apply IH2.
  - by rewrite (IH1 _ _ k k'), (IH2 _ _ k k').
  - by rewrite (IH1 _ _ k k'), Hk.
  - by apply IH1.
  - by rewrite Hk.
  - by rewrite Hk.
Qed.

Lemma existsb_fmap {A B : Type} (f : B → bool) (g : A → B) (l : list A) :
  existsb f (g <$> l) = existsb (fun x => f (g x)) l.
Proof. induction l as [|x l IH]; simpl; [done | f_equal; exact IH]. Qed.

Lemma existsb_bind {A B : Type} (f : B → bool) (g : A → list B) (l : list A) :
  existsb f (l ≫= g) = existsb (fun x => existsb f (g x)) l.
Proof.
  induction l as [|x l IH]; simpl; [done|].
  rewrite existsb_app. f_equal. exact IH.
Qed.

Lemma existsb_ext' {A : Type} (f g : A → bool) (l : list A) :
  (∀ x, f x = g x) → existsb f l = existsb g l.
Proof. intros H. induction l as [|x l IH]; simpl; [done | by rewrite H, IH]. Qed.

Lemma existsb_never {A : Type} (l : list A) : existsb (fun _ => false) l = false.
Proof. induction l as [|x l IH]; [done | exact IH]. Qed.

(** Consuming [w1 w2] is consuming [w1], then [w2]. *)
Lemma after_word_app (ic : bool) (prev : option ascii) (s : string)
    (k : option ascii → string → bool) (w1 w2 : string) :
  Lang.after_word ic prev s k (w1 +:+ w2)
  = Lang.after_word ic prev s (fun p t => Lang.after_word ic p t k w2) w1.
Proof.
  unfold Lang.after_word. revert prev s.
  induction w1 as [|c w1 IH]; intros prev s; simpl; [done|].
  destruct s as [|a s]; [done|]. destruct (Re.lit_eq ic c a); [apply IH | done].
Qed.

(** A regex without anchors matches the words of its language. *)
Lemma run_plain (ic : bool) (r : regex) (prev : option ascii) (s : string)
    (k : option ascii → string → bool) :
  Lang.plain r = true →
  Re.run ic r prev s k = existsb (Lang.after_word ic prev s k) (Lang.words r).
Proof.
  revert prev s k.
  induction r as [|c|r1 IH1 r2 IH2|r1 IH1 r2 IH2|r1 IH1|r1 IH1| |];
    intros prev s k Hp; simpl in Hp |- *; try done.
  - unfold Lang.after_word; simpl. by rewrite orb_false_r.
  - unfold Lang.after_word; simpl. destruct s as [|a s]; [done|].
    rewrite orb_false_r. by destruct (Re.lit_eq ic c a).
  - apply andb_true_iff in Hp as [Hp1 Hp2].
    rewrite existsb_bind.
    rewrite (run_ext ic r1 prev s _
               (fun p t => existsb (Lang.after_word ic p t k) (Lang.words r2)))
      by (intros p t; by apply IH2).
    rewrite IH1 by done. apply existsb_ext'. intros w1.
    rewrite existsb_fmap.
    rewrite (existsb_ext' _ (fun w2 =>
               Lang.after_word ic prev s
                 (fun p t => Lang.after_word ic p t k w2) w1))
      by (intros w2; apply after_word_app).
    unfold Lang.after_word at 1 3.
    destruct (Lang.eat ic w1 prev s) as [[p t]|]; [done|].
    symmetry. apply existsb_never.
  - apply andb_true_iff in Hp as [Hp1 Hp2].
    by rewrite existsb_app, IH1, IH2.
  - rewrite existsb_app, IH1 by done. simpl.
    unfold Lang.after_word at 3; simpl. by rewrite orb_false_r.
  - by apply IH1.
Qed.

Section MatcherFacts.

Local Arguments String.append : simpl nomatch.

(** What [eat] consumes under [re.IGNORECASE]: a part of the subject equal
    to the word up to case. *)
Lemma eat_spec (w : string) (prev : option ascii) (s : string)
    (p : option ascii) (t : string) :
  Lang.eat true w prev s = Some (p, t)
  ↔ ∃ m, s = m +:+ t ∧ Str.lower m = Str.lower w ∧ p = Str.last_or prev m.
Proof.
  revert prev s. induction w as [|c w IH]; intros prev s; simpl.
  - split.
    + intros [= -> ->]. by exists "".
    + intros (m & -> & Hm & ->). by destruct m.
  - destruct s as [|a s].
    + split; [done|]. intros (m & Hs & Hm & _). by destruct m.
    + unfold Re.lit_eq. case_bool_decide as Hc.
      * rewrite IH. split.
        -- intros (m & -> & Hm & ->). exists (String a m). simpl.
           unfold Str.lower in *; simpl. by rewrite Hc, Hm.
        -- intros (m & Hs & Hm & ->). destruct m as [|a' m]; [done|].
           simpl in Hs. injection Hs as <- ->.
           unfold Str.lower in Hm; simpl in Hm. injection Hm as _ Hm.
           by exists m.
      * split; [done|]. intros (m & Hs & Hm & _).
        destruct m as [|a' m]; [done|]. simpl in Hs. injection Hs as <- _.
        unfold Str.lower in Hm; simpl in Hm. by injection Hm as Hm _.
Qed.

(** A search finds a match at the end of some prefix of the subject. *)
Lemma scan_spec (ic : bool) (r : regex) (prev : option ascii) (s : string) :
  Re.scan ic r prev s = true
  ↔ ∃ pre t, s = pre +:+ t ∧ Re.run ic r (Str.last_or prev pre) t Re.accept = true.
Proof.
  revert prev. induction s as [|a s IH]; intros prev; simpl.
  - rewrite orb_false_r. split.
    + intros H. by exists "", "".
    + intros (pre & t & Hs & H). destruct pre; [|done]. simpl in *. by subst.
  - rewrite orb_true_iff, IH. split.
    + intros [H | (pre & t & -> & H)].
      * by exists "", (String a s).
      * by exists (String a pre), t.
    + intros (pre & t & Hs & H). destruct pre as [|a' pre]; simpl in *.
      * left. by subst.
      * right. injection Hs as <- ->. by exists pre, t.
Qed.

(** A part equal up to case to a word with word characters at its ends has
    word characters at its ends. *)
Lemma wordy_part (w m : string) (d : option ascii) :
  Lang.wordy w = true → Str.lower m = Str.lower w →
  m ≠ "" ∧ Re.word_side (Re.head m) = true ∧ Re.word_side (Str.last_or d m) = true.
Proof.
  unfold Lang.wordy. intros [Hh Hl]%andb_true_iff Hm.
  assert (m ≠ "") as Hne.
  { intros ->. destruct w; [done|]. done. }
  split_and!; [done | |].
  - by rewrite <- word_side_head_lower, Hm, word_side_head_lower.
  - destruct m as [|a m]; [done|]. simpl.
    change (Re.word_side (Str.last (String a m)) = true).
    unfold Str.last.
    rewrite <- (word_side_last_lower None), Hm.
    by rewrite (word_side_last_lower None).
Qed.

(** Searching [\b(g)\b] under [re.IGNORECASE] finds the words of [g] that
    the subject contains as whole words. *)
Lemma bounded_search (g : regex) (s : string) :
  Lang.plain g = true →
  Forall (fun w => Lang.wordy w = true) (Lang.words g) →
  Re.scan true (Lang.bounded g) None s = true
  ↔ ∃ w, w ∈ Lang.words g ∧ Spec.whole_word_ci w s.
Proof.
  intros Hp Hw. rewrite scan_spec. unfold Lang.bounded, Spec.whole_word_ci.
  rewrite Forall_forall in Hw. split.
  - intros (pre & t & -> & H). cbn [Re.run] in H.
    destruct (xorb _ _) eqn:Hb1 in H; [|done].
    rewrite run_plain in H by done.
    apply existsb_exists in H as (w & Hin & H).
    apply list_elem_of_In in Hin.
    unfold Lang.after_word in H.
    destruct (Lang.eat true w _ t) as [[p t']|] eqn:He; [|done].
    destruct (xorb _ _) eqn:Hb2 in H; [|done].
    apply eat_spec in He as (m & -> & Hm & ->).
    destruct (wordy_part w m (Str.last_or None pre) (Hw w Hin) Hm)
      as (Hne & Hh & Hl).
    rewrite head_app, Hh in Hb1 by done. rewrite Hl in Hb2.
    exists w. split; [done|]. exists pre, m, t'.
    split_and!; [done | done | |].
    + unfold Str.last. by destruct (Re.word_side (Str.last_or None pre)).
    + by destruct (Re.word_side (Re.head t')).
  - intros (w & Hin & pre & mid & post & -> & Hm & Hpre & Hpost).
    exists pre, (mid +:+ post). split; [done|].
    destruct (wordy_part w mid (Str.last_or None pre) (Hw w Hin) Hm)
      as (Hne & Hh & Hl).
    cbn [Re.run]. unfold Str.last in Hpre.
    rewrite head_app, Hh, Hpre by done. simpl.
    rewrite run_plain by done. apply existsb_exists. exists w.
    split; [by apply list_elem_of_In|].
    unfold Lang.after_word.
    assert (Lang.eat true w (Str.last_or None pre) (mid +:+ post)
            = Some (Str.last_or (Str.last_or None pre) mid, post)) as ->.
    { apply eat_spec. by exists mid. }
    by rewrite Hl, Hpost.
Qed.

(** The case of the subject does not matter to [whole_word_ci]. *)
Lemma whole_word_ci_lower (w s : string) :
  Spec.whole_word_ci w (Str.lower s) ↔ Spec.whole_word_ci w s.
Proof.
  unfold Spec.whole_word_ci. split.
  - intros (pre & mid & post & Hs & Hm & Hpre & Hpost).
    apply lower_split in Hs as (pre' & rest & -> & <- & Hrest).
    apply lower_split in Hrest as (mid' & post' & -> & <- & <-).
    exists pre', mid', post'. split_and!; [done | | |].
    + by rewrite <- Hm, lower_idem.
    + by rewrite <- word_side_str_last_lower.
    + by rewrite <- word_side_head_lower.
  - intros (pre & mid & post & -> & Hm & Hpre & Hpost).
    exists (Str.lower pre), (Str.lower mid), (Str.lower post).
    rewrite !lower_app. split_and!; [done | | |].
    + by rewrite lower_idem.
    + by rewrite word_side_str_last_lower.
    + by rewrite word_side_head_lower.
Qed.

(** A match of an anchor-free group at the start of a lowercase subject:
    the subject starts with one of its (lowercase) words. *)
Lemma anchored_match (g : regex) (s : string) :
  Lang.plain g = true →
  Forall (fun w => Str.lower w = w) (Lang.words g) →
  Re.run true (Seq Bol (Group g)) None (Str.lower s) Re.accept = true
  ↔ ∃ w, w ∈ Lang.words g ∧ Spec.starts_with w (Str.lower s).
Proof.
  intros Hp Hw. rewrite Forall_forall in Hw. cbn [Re.run].
  rewrite run_plain by done. rewrite existsb_exists.
  unfold Spec.starts_with, Lang.after_word. split.
  - intros (w & Hin & H). apply list_elem_of_In in Hin.
    destruct (Lang.eat true w None (Str.lower s)) as [[p t]|] eqn:He; [|done].
    apply eat_spec in He as (m & Hs & Hm & _).
    exists w. split; [done|]. exists t.
    rewrite (lower_part _ _ _ Hs), (Hw w Hin) in Hm. by subst.
  - intros (w & Hin & rest & Hs). exists w.
    split; [by apply list_elem_of_In|].
    assert (Lang.eat true w None (Str.lower s)
            = Some (Str.last_or None w, rest)) as ->; [|done].
    apply eat_spec. by exists w.
Qed.

End MatcherFacts.

(** ** [is_strong_claim] *)

Lemma intro_words :
  Lang.words (Alt (Re.word "one of") (Alt thats_opt
               (Alt (Re.word "my name") (Re.word "that's"))))
  = ["one of"; "that's"; "thats"; "my name"; "that's"].
Proof. vm_compute. reflexivity. Qed.

Lemma intro_dedup_words :
  Lang.words (Alt (Re.word "one of") (Alt thats_opt (Re.word "my name")))
  = ["one of"; "that's"; "thats"; "my name"].
Proof. vm_compute. reflexivity. Qed.

Lemma verb_words :
  Lang.words (Alt (Re.word "lose") (Alt (Re.word "gain") (Alt (Re.word "burn")
               (Alt (Re.word "get") (Alt makes_opt (Alt (Re.word "is")
               (Alt (Re.word "will") (Alt (Re.word "can") (Re.word "do")))))))))
  = ["lose"; "gain"; "burn"; "get"; "makes"; "make"; "is"; "will"; "can"; "do"].
Proof. vm_compute. reflexivity. Qed.

Lemma keyword_words :
  Lang.words (Alt (Seq (Re.word "calorie") (Opt (Lit "s")))
               (Alt (Seq (Re.word "pound") (Opt (Group (Lit "s"))))
               (Alt (Re.word "weight") (Re.word "energy"))))
  = ["calories"; "calorie"; "pounds"; "pound"; "weight"; "energy"].
Proof. vm_compute. reflexivity. Qed.

Lemma run_anchored (ic : bool) (g : regex) (s : string)
    (k : option ascii → string → bool) :
  Re.run ic (Seq Bol (Group g)) None s k = Re.run ic g None s k.
Proof. reflexivity. Qed.

(** The intro pattern matches when the lowercased sentence starts like an
    introduction. *)
Lemma intro_match (sent : string) :
  re_match INTRO_PATTERN (Str.lower sent) = true ↔ Spec.intro_start sent.
Proof.
  unfold re_match, INTRO_PATTERN; cbn [source ignorecase].
  rewrite anchored_match; [|done|rewrite intro_words; by repeat constructor].
  rewrite intro_words. unfold Spec.intro_start, Spec.INTROS.
  split; intros (w & Hin & H); exists w; (split; [|done]);
    revert Hin; rewrite !elem_of_cons, elem_of_nil; tauto.
Qed.

(** The verb pattern finds a verb of the list as a whole word. *)
Lemma verb_search (sent : string) :
  re_search VERB_PATTERN (Str.lower sent) = true ↔ Spec.has_verb sent.
Proof.
  unfold re_search, VERB_PATTERN; cbn [source ignorecase].
  match goal with |- Re.scan true (Seq WordB (Seq (Group ?g) WordB)) _ _ = true ↔ _ =>
    change (Re.scan true (Lang.bounded g) None (Str.lower sent) = true
            ↔ Spec.has_verb sent)
  end.
  rewrite bounded_search; [|done|rewrite verb_words; by repeat constructor].
  rewrite verb_words. unfold Spec.has_verb, Spec.VERBS.
  split; intros (w & Hin & H); exists w;
    (split; [|by apply whole_word_ci_lower]);
    revert Hin; rewrite !elem_of_cons, elem_of_nil; tauto.
Qed.

(** The keyword pattern finds a keyword of the list as a whole word. *)
Lemma keyword_search (sent : string) :
  re_search KEYWORD_PATTERN sent = true ↔ Spec.has_keyword sent.
Proof.
  unfold re_search, KEYWORD_PATTERN; cbn [source ignorecase].
  match goal with |- Re.scan true (Seq WordB (Seq (Group ?g) WordB)) _ _ = true ↔ _ =>
    change (Re.scan true (Lang.bounded g) None sent = true
            ↔ Spec.has_keyword sent)
  end.
  rewrite bounded_search; [|done|rewrite keyword_words; by repeat constructor].
  rewrite keyword_words. unfold Spec.has_keyword, Spec.KEYWORDS.
  split; intros (w & Hin & H); exists w; (split; [|done]);
    revert Hin; rewrite !elem_of_cons, elem_of_nil; tauto.
Qed.



(** On Latin-1 strings the matcher of [Wide] is the matcher of [Re]. *)
Lemma wide_lower_embed (s : string) :
  Wide.lower (Wide.embed s) = Wide.embed (Str.lower s).
Proof.
  unfold Wide.lower, Str.lower. induction s as [|c s IH]; [done|].
  simpl. f_equal. exact IH.
Qed.

Lemma wide_run_embed (ic : bool) (r : regex) (prev : option ascii) (s : string)
    (k : option ascii → string → bool)
    (k' : option Wide.uchar → list Wide.uchar → bool) :
  (∀ p t, k' (Wide.Latin <$> p) (Wide.embed t) = k p t) →
  Wide.run ic r (Wide.Latin <$> prev) (Wide.embed s) k' = Re.run ic r prev s k.
Proof.
  revert prev s k k'.
  induction r as [|c|r1 IH1 r2 IH2|r1 IH1 r2 IH2|r1 IH1|r1 IH1| |];
    intros prev s k k' Hk; simpl.
  - apply Hk.
  - destruct s as [|a s]; [done|]. simpl.
    destruct (Re.lit_eq ic c a); [exact (Hk (Some a) s) | done].
  - apply IH1. intros p t. by apply IH2.
  - by rewrite (IH1 _ _ k k'), (IH2 _ _ k k').
  - by rewrite (IH1 _ _ k k'), Hk.
  - by apply IH1.
  - destruct prev; [done | exact (Hk None s)].
  - replace (Wide.word_side (Wide.Latin <$> prev)) with (Re.word_side prev)
      by (by destruct prev).
    replace (Wide.word_side (head (Wide.embed s))) with (Re.word_side (Re.head s))
      by (by destruct s).
    by rewrite Hk.
Qed.

Lemma wide_scan_embed (ic : bool) (r : regex) (prev : option ascii) (s : string) :
  Wide.scan ic r (Wide.Latin <$> prev) (Wide.embed s) = Re.scan ic r prev s.
Proof.
  revert prev. induction s as [|a s IH]; intros prev.
  - pose proof (wide_run_embed ic r prev "" Re.accept Wide.accept
                  (fun _ _ => eq_refl)) as H.
    simpl in *. by rewrite H.
  - pose proof (wide_run_embed ic r prev (String a s) Re.accept Wide.accept
                  (fun _ _ => eq_refl)) as H.
    simpl in *. rewrite H. f_equal. exact (IH (Some a)).
Qed.

Lemma wide_is_strong_claim_embed (sent : string) :
  Wide.is_strong_claim (Wide.embed sent) = is_strong_claim sent.
Proof.
  unfold Wide.is_strong_claim, is_strong_claim, Wide.re_match, Wide.re_search,
    re_match, re_search. cbn zeta. rewrite wide_lower_embed.
  rewrite (wide_run_embed _ _ None (Str.lower sent) Re.accept Wide.accept) by done.
  by rewrite (wide_scan_embed _ _ None).
Qed.


(** C8: the second "that's" of the intro pattern changes nothing:
    is_strong_claim agrees on every sentence with the predicate built on the
    pattern without it. *)
Theorem intro_duplicate_is_inert (sent : string) :
  is_strong_claim sent = is_strong_claim_dedup sent.
Proof.
  unfold is_strong_claim, is_strong_claim_dedup. cbn zeta.
  assert (re_match INTRO_PATTERN (Str.lower sent)
          = re_match INTRO_PATTERN_dedup (Str.lower sent)) as ->; [|done].
  unfold re_match, INTRO_PATTERN, INTRO_PATTERN_dedup; cbn [source ignorecase].
  rewrite !run_anchored, !run_plain by done.
  rewrite intro_words, intro_dedup_words. cbn [existsb].
  generalize (Lang.after_word true None (Str.lower sent) Re.accept).
  intros f. destruct (f "one of"), (f "that's"), (f "thats"), (f "my name"); done.
Qed.

(** ** [filter_claims] *)

(** The loop of [filter_claims] keeps the items that pass its test, in
    their order. *)
Lemma filter_loop (allowed_labels : gset string) (keyword_pattern : pattern)
    (acc rs : list (string * string * list (string * string))) :
  foldl (filter_step allowed_labels keyword_pattern) acc rs
  = acc ++ List.filter
             (fun '(_, sent, ents) =>
                has_label allowed_labels ents || re_search keyword_pattern sent)
             rs.
Proof.
  revert acc. induction rs as [|[[timerange sent] ents] rs IH]; intros acc.
  - by rewrite app_nil_r.
  - cbn [foldl List.filter]. rewrite IH. unfold filter_step.
    destruct (has_label allowed_labels ents || re_search keyword_pattern sent);
      [by rewrite <- app_assoc | done].
Qed.

Lemma has_label_empty (ents : list (string * string)) : has_label ∅ ents = false.
Proof.
  unfold has_label. induction ents as [|[text label] ents IH]; [done|].
  cbn [existsb]. rewrite IH.
  by rewrite bool_decide_eq_false_2 by apply not_elem_of_empty.
Qed.

Lemma default_labels (label : string) :
  label ∈ DEFAULT_LABELS ↔ label ∈ Spec.NUMERIC_LABELS.
Proof.
  unfold DEFAULT_LABELS, Spec.NUMERIC_LABELS.
  rewrite !elem_of_union, !elem_of_singleton, !elem_of_cons, elem_of_nil. tauto.
Qed.

Lemma has_label_default (ents : list (string * string)) :
  has_label DEFAULT_LABELS ents = true ↔ Spec.has_numeric ents.
Proof.
  unfold has_label, Spec.has_numeric. rewrite existsb_exists.
  split; intros ([text label] & Hin & H); exists (text, label);
    (split; [by apply list_elem_of_In|]).
  - apply bool_decide_eq_true_1 in H. by apply default_labels.
  - apply bool_decide_eq_true_2. by apply default_labels.
Qed.

(** C3: with its default parameters filter_claims keeps exactly the triples
    that have an entity labelled QUANTITY, CARDINAL or PERCENT, or whose
    sentence contains calorie(s), pound(s), weight or energy as a whole
    word, up to case.  A sentence with "calories" and no numeric entity is
    kept, one with a CARDINAL entity and no keyword is kept, and one with
    neither is dropped. *)
Theorem filter_claims_default :
  (∃ keep : string * string * list (string * string) → bool,
     (∀ (timerange sent : string) (ents : list (string * string)),
        keep (timerange, sent, ents) = true
        ↔ Spec.has_numeric ents ∨ Spec.has_keyword sent)
     ∧ ∀ rs, filter_claims rs None None = List.filter keep rs)
  ∧ filter_claims [("0.0-3.0", "Walking burns calories", [])] None None
    = [("0.0-3.0", "Walking burns calories", [])]
  ∧ filter_claims [("3.0-5.0", "I ate 200 apples", [("200", "CARDINAL")])] None None
    = [("3.0-5.0", "I ate 200 apples", [("200", "CARDINAL")])]
  ∧ filter_claims [("5.0-6.0", "Hello from Bob", [("Bob", "PERSON")])] None None
    = [].
Proof.
  split_and!; [|by vm_compute..].
  exists (fun '(_, sent, ents) =>
            has_label DEFAULT_LABELS ents || re_search KEYWORD_PATTERN sent).
  split.
  - intros timerange sent ents.
    by rewrite orb_true_iff, has_label_default, keyword_search.
  - intros rs. unfold filter_claims. by rewrite filter_loop.
Qed.

(** C7: with an empty set of allowed labels, and the default keyword
    pattern, filter_claims keeps exactly the triples whose sentence the
    keyword pattern finds a match in: the default labels are not used, so a
    sentence with a CARDINAL entity and no keyword is dropped. *)
Theorem filter_claims_empty_labels :
  (∀ rs : list (string * string * list (string * string)),
     filter_claims rs (Some ∅) None
     = List.filter (fun '(_, sent, _) => re_search KEYWORD_PATTERN sent) rs)
  ∧ (∀ sent : string, re_search KEYWORD_PATTERN sent = true ↔ Spec.has_keyword sent)
  ∧ filter_claims [("3.0-5.0", "I ate 200 apples", [("200", "CARDINAL")])]
      (Some ∅) None
    = [].
Proof.
  split_and!; [|apply keyword_search|by vm_compute].
  intros rs. unfold filter_claims. rewrite filter_loop. simpl.
  induction rs as [|[[timerange sent] ents] rs IH]; [done|].
  cbn [List.filter]. by rewrite IH, has_label_empty.
Qed.

(** ** [load_transcript] *)

Section StripFacts.

Local Arguments String.append : simpl nomatch.

Lemma rstrip_cons (c : ascii) (s : string) :
  Str.rstrip (String c s)
  = if bool_decide (Str.rstrip s = "") && Char.isspace c then ""
    else String c (Str.rstrip s).
Proof. simpl. destruct (Str.rstrip s), (Char.isspace c); done. Qed.

Lemma lstrip_idem (s : string) : Str.lstrip (Str.lstrip s) = Str.lstrip s.
Proof.
  induction s as [|c s IH]; [done|]. simpl.
  destruct (Char.isspace c) eqn:Hc; [done|]. simpl. by rewrite Hc.
Qed.

Lemma rstrip_idem (s : string) : Str.rstrip (Str.rstrip s) = Str.rstrip s.
Proof.
  induction s as [|c s IH]; [done|]. rewrite rstrip_cons.
  case_bool_decide as He; destruct (Char.isspace c) eqn:Hc; simpl; try done.
  - rewrite He. simpl. by rewrite Hc.
  - rewrite IH. by destruct (Str.rstrip s).
  - rewrite IH. by destruct (Str.rstrip s).
Qed.

Lemma lstrip_rstrip (s : string) :
  Str.lstrip (Str.rstrip s) = Str.rstrip (Str.lstrip s).
Proof.
  induction s as [|c s IH]; [done|]. rewrite rstrip_cons.
  cbn [Str.lstrip]. destruct (Char.isspace c) eqn:Hc.
  - case_bool_decide as He; simpl.
    + by rewrite <- IH, He.
    + by rewrite Hc.
  - rewrite andb_false_r, rstrip_cons, Hc, andb_false_r. simpl. by rewrite Hc.
Qed.

Lemma strip_lstrip (s : string) : Str.strip (Str.lstrip s) = Str.strip s.
Proof. unfold Str.strip. by rewrite lstrip_idem. Qed.

Lemma strip_rstrip (s : string) : Str.strip (Str.rstrip s) = Str.strip s.
Proof. unfold Str.strip. by rewrite lstrip_rstrip, rstrip_idem. Qed.

(** Stripping stops at a character that is not white space. *)
Lemma lstrip_app (a b : string) (c : ascii) :
  Char.isspace c = false →
  Str.lstrip (a +:+ String c b) = Str.lstrip a +:+ String c b.
Proof.
  intros Hc. induction a as [|x a IH]; simpl; [by rewrite Hc|].
  by destruct (Char.isspace x).
Qed.

Lemma rstrip_app (a b : string) (c : ascii) :
  Char.isspace c = false →
  Str.rstrip (a +:+ String c b) = a +:+ String c (Str.rstrip b).
Proof.
  intros Hc. induction a as [|x a IH].
  - cbn [String.append]. by rewrite rstrip_cons, Hc, andb_false_r.
  - cbn [String.append]. rewrite rstrip_cons, IH.
    rewrite bool_decide_eq_false_2 by (by destruct a). done.
Qed.

Lemma mem_lstrip (c : ascii) (s : string) :
  Char.isspace c = false → Str.mem c (Str.lstrip s) = Str.mem c s.
Proof.
  intros Hc. induction s as [|x s IH]; [done|]. simpl.
  destruct (Char.isspace x) eqn:Hx; [|done].
  rewrite IH. rewrite bool_decide_eq_false_2; [done|]. congruence.
Qed.

Lemma mem_rstrip (c : ascii) (s : string) :
  Char.isspace c = false → Str.mem c (Str.rstrip s) = Str.mem c s.
Proof.
  intros Hc. induction s as [|x s IH]; [done|]. rewrite rstrip_cons.
  case_bool_decide as He; destruct (Char.isspace x) eqn:Hx; simpl;
    rewrite <- ?IH, ?He; try done.
  simpl. rewrite bool_decide_eq_false_2; [done|]. congruence.
Qed.

Lemma mem_strip (c : ascii) (s : string) :
  Char.isspace c = false → Str.mem c (Str.strip s) = Str.mem c s.
Proof. intros Hc. unfold Str.strip. by rewrite mem_rstrip, mem_lstrip. Qed.

(** Cutting the stripped line at its first colon gives, once stripped, the
    stripped parts of the line. *)
Lemma strip_cut (line : string) :
  Str.mem ":" line = true →
  Str.strip (Str.before ":" (Str.strip line)) = Str.strip (Str.before ":" line)
  ∧ Str.strip (Str.after ":" (Str.strip line)) = Str.strip (Str.after ":" line).
Proof.
  intros Hm. destruct (before_after _ _ Hm) as [Hline Hb].
  set (a := Str.before ":" line) in *. set (b := Str.after ":" line) in *.
  assert (Str.strip line = Str.lstrip a +:+ String ":" (Str.rstrip b)) as ->.
  { rewrite Hline at 1. unfold Str.strip.
    by rewrite lstrip_app, rstrip_app. }
  destruct (cut_unique ":" (Str.lstrip a) (Str.rstrip b)) as [-> ->].
  { by rewrite mem_lstrip. }
  by rewrite strip_lstrip, strip_rstrip.
Qed.

End StripFacts.

(** The three outcomes of an iteration of the loop. *)
Lemma load_step_blank (segments : list (string * string)) (line : string) :
  Spec.nonblank line = false → load_step segments line = Ok segments.
Proof.
  unfold Spec.nonblank, load_step. intros H%negb_false_iff. by rewrite H.
Qed.

Lemma load_step_malformed (segments : list (string * string)) (line : string) :
  Spec.nonblank line = true → Str.mem ":" line = false →
  load_step segments line = Raise ValueError.
Proof.
  unfold Spec.nonblank, load_step. intros H%negb_true_iff Hm. rewrite H.
  by rewrite split1_missing by (by rewrite mem_strip).
Qed.

Lemma load_step_segment (segments : list (string * string)) (line : string) :
  Spec.nonblank line = true → Str.mem ":" line = true →
  load_step segments line = Ok (segments ++ [Spec.parse_line line]).
Proof.
  unfold Spec.nonblank, load_step. intros H%negb_true_iff Hm. rewrite H.
  rewrite split1_found by (by rewrite mem_strip). cbn.
  destruct (strip_cut line Hm) as [-> ->]. done.
Qed.

Lemma load_step_cases (segments : list (string * string)) (line : string) :
  load_step segments line = Raise ValueError
  ∨ ∃ segments', load_step segments line = Ok segments'.
Proof.
  destruct (Spec.nonblank line) eqn:Hn.
  - destruct (Str.mem ":" line) eqn:Hm.
    + right. eexists. by apply load_step_segment.
    + left. by apply load_step_malformed.
  - right. eexists. by apply load_step_blank.
Qed.

Lemma load_loop_malformed (segments : list (string * string)) (lines : list string) :
  (∃ line, line ∈ lines ∧ Spec.nonblank line = true ∧ Str.mem ":" line = false) →
  for_each load_step segments lines = Raise ValueError.
Proof.
  revert segments. induction lines as [|l lines IH]; intros segments (line & Hin & Hn & Hm).
  - by apply elem_of_nil in Hin.
  - cbn [for_each]. apply elem_of_cons in Hin as [->|Hin].
    + by rewrite load_step_malformed.
    + destruct (load_step_cases segments l) as [->|[segments' ->]]; [done|].
      apply IH. by exists line.
Qed.

Lemma load_loop_segments (segments : list (string * string)) (lines : list string) :
  (∀ line, line ∈ lines → Spec.nonblank line = true → Str.mem ":" line = true) →
  for_each load_step segments lines
  = Ok (segments ++ (Spec.parse_line <$> List.filter Spec.nonblank lines)).
Proof.
  revert segments. induction lines as [|l lines IH]; intros segments H.
  - simpl. by rewrite app_nil_r.
  - cbn [for_each List.filter]. destruct (Spec.nonblank l) eqn:Hn.
    + rewrite load_step_segment by (try apply H; by try left).
      cbn [mbind result_bind]. rewrite IH by (intros; apply H; by try right).
      by rewrite <- app_assoc.
    + rewrite load_step_blank by done. cbn [mbind result_bind].
      apply IH. intros; apply H; by try right.
Qed.

(** C4: load_transcript raises ValueError (the FormatError of the
    specification), with no segments, as soon as a line that is not blank
    has no ':'; when every line that is not blank has one, it returns the
    segment of each such line, in order: the parts before and after the
    first ':' of the line, stripped. *)
Theorem load_transcript_spec (fs : gmap string string) (path content : string) :
  fs !! path = Some content →
  ((∃ line, line ∈ File.iter content
            ∧ Spec.nonblank line = true ∧ Str.mem ":" line = false) →
   load_transcript fs path = Raise ValueError)
  ∧ ((∀ line, line ∈ File.iter content →
              Spec.nonblank line = true → Str.mem ":" line = true) →
     load_transcript fs path
     = Ok (Spec.parse_line <$> List.filter Spec.nonblank (File.iter content))).
Proof.
  intros Hfile. unfold load_transcript. rewrite Hfile. split.
  - apply load_loop_malformed.
  - intros H. by rewrite load_loop_segments.
Qed.

Lemma load_transcript_spec_witness :
  load_transcript {[ "transcript.txt" := "0.0-3.0: You can burn 200 calories
not a valid line
" ]} "transcript.txt" = Raise ValueError
  ∧ load_transcript {[ "transcript.txt" := "0.0-3.0: You can burn 200 calories

3.0-5.5:  it adds up: slowly
" ]} "transcript.txt"
    = Ok [("0.0-3.0", "You can burn 200 calories"); ("3.0-5.5", "it adds up: slowly")].
Proof.
  split.
  - refine (proj1 (load_transcript_spec _ "transcript.txt" _ _) _).
    + by vm_compute.
    + exists "not a valid line
". split; [|by vm_compute]. vm_compute. by repeat constructor.
  - refine (proj2 (load_transcript_spec _ "transcript.txt"
                     "0.0-3.0: You can burn 200 calories

3.0-5.5:  it adds up: slowly
" _) _).
    + by vm_compute.
    + intros line Hin Hn.
      match type of Hin with _ ∈ ?ls =>
        let l := eval vm_compute in ls in change (line ∈ l) in Hin
      end.
      rewrite !elem_of_cons, elem_of_nil in Hin.
      destruct Hin as [->|[->|[->|[]]]]; [by vm_compute | | by vm_compute].
      by vm_compute in Hn.
Defined.

(** * Further properties of the code *)

(** ** [merge_segments]: what the pass keeps *)

Section MergeFacts.

Local Arguments String.append : simpl nomatch.

(** The outcome of an iteration on an output that is not empty. *)
Lemma merge_step_snoc (out : list (string * string))
    (prev_range prev_text timerange text : string) (merged' : list (string * string)) :
  merge_step (out ++ [(prev_range, prev_text)]) (timerange, text) = Ok merged' →
  (Str.head_islower text = true
   ∧ Str.mem "-" prev_range = true ∧ Str.mem "-" timerange = true
   ∧ merged' = out ++ [(Str.before "-" prev_range +:+ "-" +:+ Str.after "-" timerange,
                        prev_text +:+ " " +:+ text)])
  ∨ (Str.head_islower text = false
     ∧ merged' = out ++ [(prev_range, prev_text); (timerange, text)]).
Proof.
  destruct (Str.head_islower text) eqn:Hlow.
  - rewrite (merge_step_fold _ _ _ _ _ Hlow).
    destruct (Str.mem "-" prev_range); [|done].
    destruct (Str.mem "-" timerange); [|done].
    intros [= <-]. by left.
  - rewrite (merge_step_fresh _ _ _ Hlow). intros [= <-]. right.
    by rewrite <- app_assoc.
Qed.

Lemma head_islower_app (s t : string) :
  Str.head_islower s = false → Str.head_islower (s +:+ " " +:+ t) = false.
Proof. by destruct s. Qed.

(** Every entry of the output but the first starts fresh. *)
Lemma merge_step_tail_fresh (merged merged' : list (string * string))
    (seg : string * string) :
  Forall Spec.starts_fresh (tail merged) →
  merge_step merged seg = Ok merged' →
  Forall Spec.starts_fresh (tail merged').
Proof.
  intros Hinv Hstep. destruct seg as [timerange text].
  destruct merged as [|[prev_range prev_text] out _] using rev_ind.
  - rewrite merge_step_first in Hstep. injection Hstep as <-. by constructor.
  - apply merge_step_snoc in Hstep as [(Hlow & _ & _ & ->)|(Hlow & ->)].
    + destruct out as [|o out]; [by constructor|]. simpl in *.
      apply Forall_app in Hinv as [Hout Hprev]. apply Forall_inv in Hprev.
      apply Forall_app. split; [done|]. apply Forall_singleton.
      unfold Spec.starts_fresh in *; simpl in *. by apply head_islower_app.
    + destruct out as [|o out]; simpl in *.
      * by apply Forall_singleton.
      * replace (out ++ [(prev_range, prev_text); (timerange, text)])
          with ((out ++ [(prev_range, prev_text)]) ++ [(timerange, text)])
          by (by rewrite <- app_assoc).
        apply Forall_app. split; [done | by apply Forall_singleton].
Qed.

Lemma for_each_tail_fresh (acc segs out : list (string * string)) :
  Forall Spec.starts_fresh (tail acc) →
  for_each merge_step acc segs = Ok out →
  Forall Spec.starts_fresh (tail out).
Proof.
  revert acc. induction segs as [|seg segs IH]; intros acc Hacc; cbn [for_each].
  - by intros [= <-].
  - destruct (merge_step acc seg) as [acc'|e] eqn:Hstep; [|done].
    cbn [mbind result_bind]. apply IH. by eapply merge_step_tail_fresh.
Qed.

End MergeFacts.

(** X1: merging is idempotent: a list merge_segments returns is returned
    unchanged when it is merged again. *)
Theorem merge_segments_idempotent (segs out : list (string * string)) :
  merge_segments segs = Ok out → merge_segments out = Ok out.
Proof.
  intros Hrun.
  assert (Forall Spec.starts_fresh (tail out)) as H.
  { eapply (for_each_tail_fresh []); [by constructor | exact Hrun]. }
  destruct out as [|o out]; [done|]. unfold merge_segments. cbn [for_each].
  rewrite merge_step_first. cbn [mbind result_bind].
  by rewrite (for_each_fresh [o] out H).
Qed.

Lemma merge_segments_idempotent_witness :
  merge_segments [("10-14", "Hello world"); ("14-16", "Today")]
  = Ok [("10-14", "Hello world"); ("14-16", "Today")].
Proof.
  apply (merge_segments_idempotent
           [("10-12", "Hello"); ("12-14", "world"); ("14-16", "Today")]).
  reflexivity.
Defined.

Section JoinFacts.

Local Arguments String.append : simpl nomatch.

Lemma join_cons (sep x : string) (l : list string) :
  l ≠ [] → Vocab.join sep (x :: l) = x +:+ sep +:+ Vocab.join sep l.
Proof. by destruct l. Qed.

Lemma join_app (sep : string) (a r : list string) :
  a ≠ [] → r ≠ [] →
  Vocab.join sep (a ++ r) = Vocab.join sep a +:+ sep +:+ Vocab.join sep r.
Proof.
  intros Ha Hr. induction a as [|x a IH]; [done|].
  destruct a as [|y a].
  - change ([x] ++ r) with (x :: r). by rewrite join_cons.
  - rewrite <- app_comm_cons, !join_cons by done.
    rewrite IH by done. by rewrite !str_app_assoc.
Qed.

(** An iteration adds the text of its segment to the joined texts. *)
Lemma merge_step_join (merged merged' : list (string * string)) (timerange text : string) :
  merge_step merged (timerange, text) = Ok merged' →
  merged' ≠ []
  ∧ Vocab.join " " (merged'.*2) = Vocab.join " " (merged.*2 ++ [text]).
Proof.
  intros Hstep. destruct merged as [|[prev_range prev_text] out _] using rev_ind.
  - rewrite merge_step_first in Hstep. by injection Hstep as <-.
  - apply merge_step_snoc in Hstep as [(_ & _ & _ & ->)|(_ & ->)].
    + split; [by destruct out|]. rewrite !fmap_app. simpl.
      destruct out as [|o out]; [done|].
      rewrite <- app_assoc.
      rewrite !(join_app _ ((o :: out).*2)) by done.
      reflexivity.
    + split; [by destruct out|]. by rewrite !fmap_app, <- app_assoc.
Qed.

Lemma for_each_join (acc segs out : list (string * string)) :
  for_each merge_step acc segs = Ok out →
  Vocab.join " " (out.*2) = Vocab.join " " (acc.*2 ++ segs.*2).
Proof.
  revert acc. induction segs as [|[timerange text] segs IH]; intros acc; cbn [for_each].
  - intros [= <-]. by rewrite app_nil_r.
  - destruct (merge_step acc (timerange, text)) as [acc'|e] eqn:Hstep; [|done].
    cbn [mbind result_bind]. intros Hrun. rewrite (IH _ Hrun).
    apply merge_step_join in Hstep as [Hne Hj].
    rewrite fmap_cons. cbn [snd].
    replace (acc.*2 ++ text :: segs.*2) with ((acc.*2 ++ [text]) ++ segs.*2)
      by (by rewrite <- app_assoc).
    destruct segs as [|seg segs].
    + by rewrite !app_nil_r.
    + rewrite !(join_app _ _ ((seg :: segs).*2)); [by rewrite Hj | | | |];
        try done; by destruct acc'; try destruct acc.
Qed.

End JoinFacts.

(** X2: merging loses no text: the texts of the output, joined with single
    spaces, are the texts of the input joined with single spaces. *)
Theorem merge_segments_keeps_text (segs out : list (string * string)) :
  merge_segments segs = Ok out →
  Vocab.join " " (out.*2) = Vocab.join " " (segs.*2).
Proof. intros H. by rewrite (for_each_join [] segs out H). Qed.

Lemma merge_segments_keeps_text_witness :
  Vocab.join " " ([("10-14", "Hello world"); ("14-16", "Today")].*2)
  = Vocab.join " " ([("10-12", "Hello"); ("12-14", "world"); ("14-16", "Today")].*2).
Proof.
  apply (merge_segments_keeps_text
           [("10-12", "Hello"); ("12-14", "world"); ("14-16", "Today")]).
  reflexivity.
Defined.

(** An iteration on an output that is not empty adds an entry exactly when
    the text does not start with a lowercase letter. *)
Lemma merge_step_length (merged merged' : list (string * string)) (timerange text : string) :
  merged ≠ [] →
  merge_step merged (timerange, text) = Ok merged' →
  length merged' = length merged + (if Str.head_islower text then 0 else 1).
Proof.
  intros Hne Hstep. destruct merged as [|[prev_range prev_text] out _] using rev_ind; [done|].
  apply merge_step_snoc in Hstep as [(-> & _ & _ & ->)|(-> & ->)];
    rewrite !length_app; simpl; lia.
Qed.

Lemma for_each_length (acc segs out : list (string * string)) :
  acc ≠ [] →
  for_each merge_step acc segs = Ok out →
  length out
  = length acc + length (List.filter (fun seg => negb (Str.head_islower seg.2)) segs).
Proof.
  revert acc. induction segs as [|[timerange text] segs IH]; intros acc Hne; cbn [for_each].
  - intros [= <-]. simpl. lia.
  - destruct (merge_step acc (timerange, text)) as [acc'|e] eqn:Hstep; [|done].
    cbn [mbind result_bind]. intros Hrun.
    pose proof (merge_step_length _ _ _ _ Hne Hstep) as Hlen.
    rewrite (IH acc') by (by intros ->; simpl in Hlen; destruct acc; [done | simpl in Hlen; lia]) || done.
    rewrite Hlen. cbn [List.filter snd].
    destruct (Str.head_islower text); simpl; lia.
Qed.

(** X3: the output has one entry for the first segment and one for every
    later segment whose text does not start with a lowercase letter. *)
Theorem merge_segments_length (first : string * string) (rest out : list (string * string)) :
  merge_segments (first :: rest) = Ok out →
  length out
  = 1 + length (List.filter (fun seg => negb (Str.head_islower seg.2)) rest).
Proof.
  unfold merge_segments. cbn [for_each]. rewrite merge_step_first.
  cbn [mbind result_bind]. intros H. by rewrite (for_each_length [first] rest out).
Qed.

Lemma merge_segments_length_witness :
  length [("10-14", "Hello world"); ("14-16", "Today")]
  = 1 + length (List.filter (fun seg : string * string => negb (Str.head_islower seg.2))
                  [("12-14", "world"); ("14-16", "Today")]).
Proof.
  apply (merge_segments_length ("10-12", "Hello")). reflexivity.
Defined.

(** The start of a fold's range is the start of the range folded into, and
    its end is the end of the range folded. *)
Lemma fold_range_parts (prev_range timerange : string) :
  Str.before "-" (Str.before "-" prev_range +:+ "-" +:+ Str.after "-" timerange)
  = Str.before "-" prev_range
  ∧ Str.after "-" (Str.before "-" prev_range +:+ "-" +:+ Str.after "-" timerange)
    = Str.after "-" timerange.
Proof.
  destruct (range_parts (Str.before "-" prev_range) (Str.after "-" timerange))
    as (_ & Hb & Ha); [|done].
  induction prev_range as [|c r IH]; [done|]. simpl.
  case_bool_decide as Hc; simpl; [done|]. by rewrite IH, bool_decide_eq_false_2.
Qed.

(** After an iteration the output starts where it started, or where the
    segment starts if it was empty, and ends where the segment ends. *)
Lemma merge_step_span (merged merged' : list (string * string)) (seg : string * string) :
  merge_step merged seg = Ok merged' →
  (fun s : string * string => Str.before "-" s.1) <$> head merged'
  = (fun s : string * string => Str.before "-" s.1) <$> head (merged ++ [seg])
  ∧ (fun s : string * string => Str.after "-" s.1) <$> last merged'
    = Some (Str.after "-" seg.1).
Proof.
  intros Hstep. destruct seg as [timerange text].
  destruct merged as [|[prev_range prev_text] out _] using rev_ind.
  - rewrite merge_step_first in Hstep. by injection Hstep as <-.
  - apply merge_step_snoc in Hstep as [(_ & _ & _ & ->)|(_ & ->)].
    + rewrite last_snoc. simpl.
      destruct (fold_range_parts prev_range timerange) as [Hb ->].
      split; [|done]. destruct out as [|o out]; simpl; [|done]. by rewrite Hb.
    + replace (out ++ [(prev_range, prev_text); (timerange, text)])
        with ((out ++ [(prev_range, prev_text)]) ++ [(timerange, text)])
        by (by rewrite <- app_assoc).
      by rewrite last_snoc.
Qed.

Lemma for_each_head (acc segs out : list (string * string)) :
  for_each merge_step acc segs = Ok out →
  (fun s : string * string => Str.before "-" s.1) <$> head out
  = (fun s : string * string => Str.before "-" s.1) <$> head (acc ++ segs).
Proof.
  revert acc. induction segs as [|seg segs IH]; intros acc; cbn [for_each].
  - intros [= <-]. by rewrite app_nil_r.
  - destruct (merge_step acc seg) as [acc'|e] eqn:Hstep; [|done].
    cbn [mbind result_bind]. intros Hrun. rewrite (IH _ Hrun).
    apply merge_step_span in Hstep as [Hh Hl].
    destruct acc' as [|a acc']; [done|]. simpl in *. rewrite Hh.
    by destruct acc.
Qed.

(** X4: the output spans what the input spans: its first range starts where
    the first range of the input starts, and its last range ends where the
    last range of the input ends. *)
Theorem merge_segments_span (segs out : list (string * string)) :
  merge_segments segs = Ok out →
  (fun s : string * string => Str.before "-" s.1) <$> head out
  = (fun s : string * string => Str.before "-" s.1) <$> head segs
  ∧ (fun s : string * string => Str.after "-" s.1) <$> last out
    = (fun s : string * string => Str.after "-" s.1) <$> last segs.
Proof.
  intros Hrun. split; [exact (for_each_head [] segs out Hrun)|].
  unfold merge_segments in Hrun.
  destruct segs as [|seg segs _] using rev_ind.
  - by injection Hrun as <-.
  - rewrite for_each_app in Hrun.
    destruct (for_each merge_step [] segs) as [acc|e]; [|done].
    cbn [mbind result_bind for_each] in Hrun.
    destruct (merge_step acc seg) as [acc'|e] eqn:Hstep; [|done].
    injection Hrun as <-. apply merge_step_span in Hstep as [_ ->].
    by rewrite last_snoc.
Qed.

Lemma merge_segments_span_witness :
  (fun s : string * string => Str.before "-" s.1)
    <$> head [("10-14", "Hello world"); ("14-16", "Today it is")]
  = (fun s : string * string => Str.before "-" s.1)
      <$> head [("10-12", "Hello"); ("12-14", "world"); ("14-15", "Today"); ("15-16", "it is")]
  ∧ (fun s : string * string => Str.after "-" s.1)
      <$> last [("10-14", "Hello world"); ("14-16", "Today it is")]
    = (fun s : string * string => Str.after "-" s.1)
        <$> last [("10-12", "Hello"); ("12-14", "world"); ("14-15", "Today"); ("15-16", "it is")].
Proof.
  apply (merge_segments_span
           [("10-12", "Hello"); ("12-14", "world"); ("14-15", "Today"); ("15-16", "it is")]).
  reflexivity.
Defined.

(** ** [load_transcript]: what it returns *)

Section LoadFacts.

Local Arguments String.append : simpl nomatch.

Lemma strip_idem (s : string) : Str.strip (Str.strip s) = Str.strip s.
Proof.
  unfold Str.strip. by rewrite lstrip_rstrip, lstrip_idem, rstrip_idem.
Qed.

Lemma before_no_sep (sep : ascii) (s : string) :
  Str.mem sep (Str.before sep s) = false.
Proof.
  induction s as [|c s IH]; [done|]. simpl.
  case_bool_decide as Hc; simpl; [done|]. by rewrite IH, bool_decide_eq_false_2.
Qed.

(** When the loop succeeds it has added the segment of every line that is
    not blank. *)
Lemma load_loop_ok (acc out : list (string * string)) (lines : list string) :
  for_each load_step acc lines = Ok out →
  out = acc ++ (Spec.parse_line <$> List.filter Spec.nonblank lines).
Proof.
  revert acc. induction lines as [|l lines IH]; intros acc; cbn [for_each List.filter].
  - intros [= <-]. simpl. by rewrite app_nil_r.
  - destruct (Spec.nonblank l) eqn:Hn.
    + destruct (Str.mem ":" l) eqn:Hm.
      * rewrite load_step_segment by done. cbn [mbind result_bind].
        intros ->%IH. by rewrite <- app_assoc.
      * by rewrite load_step_malformed.
    + rewrite load_step_blank by done. cbn [mbind result_bind]. apply IH.
Qed.

End LoadFacts.

(** X5: the segments load_transcript returns are normalised: neither field
    has white space at its ends, and the time range has no colon. *)
Theorem load_transcript_normalised (fs : gmap string string) (path : string)
    (segs : list (string * string)) :
  load_transcript fs path = Ok segs →
  Forall (fun seg : string * string =>
            Str.strip seg.1 = seg.1 ∧ Str.strip seg.2 = seg.2
            ∧ Str.mem ":" seg.1 = false) segs.
Proof.
  unfold load_transcript. destruct (fs !! path) as [content|]; [|done].
  intros ->%load_loop_ok. simpl. apply Forall_fmap, Forall_forall.
  intros line _. unfold Spec.parse_line; simpl.
  rewrite !strip_idem, mem_strip by done. by rewrite before_no_sep.
Qed.

Lemma load_transcript_normalised_witness :
  Forall (fun seg : string * string =>
            Str.strip seg.1 = seg.1 ∧ Str.strip seg.2 = seg.2
            ∧ Str.mem ":" seg.1 = false)
    [("0.0-3.0", "You can burn 200 calories"); ("3.0-5.5", "it adds up: slowly")].
Proof.
  apply (load_transcript_normalised
           {[ "transcript.txt" := " 0.0-3.0 :  You can burn 200 calories
3.0-5.5: it adds up: slowly  " ]} "transcript.txt").
  by vm_compute.
Defined.

(** ** [transcribe_audio] and [load_transcript] *)

Section RoundTrip.

Local Arguments String.append : simpl nomatch.

Lemma forallb_app (f : ascii → bool) (s t : string) :
  Vocab.forallb f (s +:+ t) = Vocab.forallb f s && Vocab.forallb f t.
Proof. induction s as [|c s IH]; simpl; [done | by rewrite IH, andb_assoc]. Qed.

Lemma forallb_mem (f : ascii → bool) (c : ascii) (s : string) :
  Vocab.forallb f s = true → f c = false → Str.mem c s = false.
Proof.
  intros Hs Hc. induction s as [|a s IH]; [done|]. simpl in *.
  apply andb_true_iff in Hs as [Ha Hs]. rewrite (IH Hs).
  rewrite bool_decide_eq_false_2; [done|]. congruence.
Qed.

(** A formatted time has no colon, line break or other white space. *)
Lemma timestamp_mem (c : ascii) (s : string) :
  Vocab.timestamp s = true →
  Char.isspace c = true ∨ c = ":"%char → Str.mem c s = false.
Proof.
  intros Hs Hc. apply (forallb_mem _ c s Hs).
  destruct Hc as [-> | ->]; [done|]. by rewrite andb_false_r.
Qed.

Lemma timestamp_strip (s t : string) :
  Vocab.timestamp s = true → Vocab.timestamp t = true →
  Str.strip (s +:+ "-" +:+ t) = s +:+ "-" +:+ t.
Proof.
  intros Hs Ht.
  assert (Vocab.timestamp (s +:+ "-" +:+ t) = true) as H.
  { unfold Vocab.timestamp in *. rewrite !forallb_app, Hs. simpl. by rewrite Ht. }
  generalize dependent (s +:+ "-" +:+ t). clear. intros x H.
  unfold Str.strip.
  assert (Str.lstrip x = x) as ->.
  { destruct x as [|c x]; [done|]. simpl in *.
    apply andb_true_iff in H as [[Hc _]%andb_true_iff _].
    apply negb_true_iff in Hc. by rewrite Hc. }
  induction x as [|c x IH]; [done|]. simpl in H.
  apply andb_true_iff in H as [[Hc _]%andb_true_iff Hx].
  apply negb_true_iff in Hc.
  by rewrite rstrip_cons, Hc, andb_false_r, (IH Hx).
Qed.

Lemma rstrip_snoc (c : ascii) (s : string) :
  Char.isspace c = true → Str.rstrip (s +:+ String c "") = Str.rstrip s.
Proof.
  intros Hc. induction s as [|x s IH].
  - cbn [String.append]. by rewrite rstrip_cons, Hc.
  - cbn [String.append]. by rewrite !rstrip_cons, IH.
Qed.

Lemma strip_snoc (c : ascii) (s : string) :
  Char.isspace c = true → Str.strip (s +:+ String c "") = Str.strip s.
Proof.
  intros Hc. unfold Str.strip. by rewrite <- !lstrip_rstrip, rstrip_snoc.
Qed.

Lemma write_text_read (linesep s rest : string) :
  linesep = String File.LF "" ∨ linesep = String File.CR (String File.LF "") →
  Str.mem File.CR s = false →
  File.universal_newlines (FileOut.write_text linesep s +:+ rest)
  = s +:+ File.universal_newlines rest.
Proof.
  intros Hsep. induction s as [|c s IH]; [done|]. simpl.
  intros [Hc Hs]%orb_false_iff. apply bool_decide_eq_false_1 in Hc.
  case_bool_decide as Hlf.
  - subst c. destruct Hsep as [-> | ->]; simpl; by rewrite IH.
  - cbn [String.append File.universal_newlines].
    by rewrite bool_decide_eq_false_2, IH.
Qed.

Lemma lines_line (body rest : string) :
  Str.mem File.LF body = false →
  File.lines (body +:+ String File.LF rest)
  = (body +:+ String File.LF "") :: File.lines rest.
Proof.
  induction body as [|c body IH]; [done|]. simpl.
  intros [Hc Hb]%orb_false_iff. apply bool_decide_eq_false_1 in Hc.
  by rewrite bool_decide_eq_false_2, (IH Hb).
Qed.

Context {T : Type} (fmt : T → string).

Lemma transcript_line_shape (seg : Whisper.Segment T) :
  transcript_line fmt seg
  = (fmt (Whisper.start seg) +:+ "-" +:+ fmt (Whisper.end_ seg))
    +:+ String ":" (String " " (Whisper.text seg +:+ String File.LF "")).
Proof. unfold transcript_line. by rewrite !str_app_assoc. Qed.

Lemma transcript_line_body (seg : Whisper.Segment T) :
  Vocab.writable fmt seg →
  ∃ body, transcript_line fmt seg = body +:+ String File.LF ""
          ∧ Str.mem File.LF body = false ∧ Str.mem File.CR body = false.
Proof.
  intros (Hs & He & [Hlf Hcr]%andb_true_iff).
  apply negb_true_iff in Hlf, Hcr.
  exists (fmt (Whisper.start seg) +:+ "-" +:+ fmt (Whisper.end_ seg) +:+ ": "
          +:+ Whisper.text seg).
  split; [unfold transcript_line; by rewrite !str_app_assoc|].
  rewrite !str_mem_app, Hlf, Hcr.
  rewrite !(timestamp_mem _ _ Hs), !(timestamp_mem _ _ He) by (by left).
  done.
Qed.

Lemma transcript_line_parsed (seg : Whisper.Segment T) :
  Vocab.writable fmt seg →
  Spec.nonblank (transcript_line fmt seg) = true
  ∧ Str.mem ":" (transcript_line fmt seg) = true
  ∧ Spec.parse_line (transcript_line fmt seg)
    = (fmt (Whisper.start seg) +:+ "-" +:+ fmt (Whisper.end_ seg),
       Str.strip (Whisper.text seg)).
Proof.
  intros (Hs & He & _). rewrite transcript_line_shape.
  set (range := fmt (Whisper.start seg) +:+ "-" +:+ fmt (Whisper.end_ seg)).
  assert (Str.mem ":" range = false) as Hr.
  { unfold range. rewrite !str_mem_app.
    by rewrite (timestamp_mem _ _ Hs), (timestamp_mem _ _ He) by (by right). }
  assert (Str.mem ":" (range +:+ String ":"
            (String " " (Whisper.text seg +:+ String File.LF ""))) = true) as Hm.
  { rewrite str_mem_app. simpl. by rewrite orb_true_r. }
  split_and!; [|done|].
  - unfold Spec.nonblank. apply negb_true_iff, bool_decide_eq_false_2.
    intros Hblank. rewrite <- (mem_strip ":"), Hblank in Hm by done. done.
  - unfold Spec.parse_line. destruct (cut_unique ":" range
      (String " " (Whisper.text seg +:+ String File.LF "")) Hr) as [-> ->].
    f_equal; [by apply timestamp_strip|].
    transitivity (Str.strip (Whisper.text seg +:+ String File.LF "")); [done|].
    by apply strip_snoc.
Qed.

Lemma written_text (linesep : string) (segments : list (Whisper.Segment T)) (acc : string) :
  foldl (fun f seg => f +:+ FileOut.write_text linesep (transcript_line fmt seg))
    acc segments
  = acc +:+ foldr (fun seg r => FileOut.write_text linesep (transcript_line fmt seg) +:+ r)
              "" segments.
Proof.
  revert acc. induction segments as [|seg segments IH]; intros acc; simpl.
  - by rewrite str_app_nil_r.
  - by rewrite IH, str_app_assoc.
Qed.

Lemma written_lines (linesep : string) (segments : list (Whisper.Segment T)) :
  linesep = String File.LF "" ∨ linesep = String File.CR (String File.LF "") →
  Forall (Vocab.writable fmt) segments →
  File.iter (foldr (fun seg r => FileOut.write_text linesep (transcript_line fmt seg) +:+ r)
               "" segments)
  = transcript_line fmt <$> segments.
Proof.
  intros Hsep Hw. unfold File.iter.
  induction Hw as [|seg segments Hseg _ IH]; [done|]. cbn [foldr fmap list_fmap].
  destruct (transcript_line_body seg Hseg) as (body & Hline & Hlf & Hcr).
  rewrite write_text_read; [|done|].
  - rewrite Hline, str_app_assoc. cbn [String.append].
    rewrite lines_line by done. by rewrite IH.
  - rewrite Hline, str_mem_app, Hcr. done.
Qed.

Lemma written_transcript_loads (linesep : string)
    (segments : list (Whisper.Segment T)) (path : string) (fs : gmap string string) :
  linesep = String File.LF "" ∨ linesep = String File.CR (String File.LF "") →
  Forall (Vocab.writable fmt) segments →
  load_transcript (transcribe_audio fmt linesep segments path fs) path
  = Ok ((fun seg => (fmt (Whisper.start seg) +:+ "-" +:+ fmt (Whisper.end_ seg),
                     Str.strip (Whisper.text seg))) <$> segments).
Proof.
  intros Hsep Hw. unfold load_transcript, transcribe_audio.
  rewrite lookup_insert_eq, written_text. cbn [String.append].
  rewrite written_lines by done.
  rewrite load_loop_segments.
  - f_equal. simpl. induction Hw as [|seg segments Hseg _ IH]; [done|].
    destruct (transcript_line_parsed seg Hseg) as (Hn & _ & Hp).
    cbn [fmap list_fmap List.filter]. rewrite Hn. cbn [fmap list_fmap].
    by rewrite Hp, IH.
  - intros line [seg [-> Hin]]%list_elem_of_fmap _.
    rewrite Forall_forall in Hw. by apply transcript_line_parsed, Hw.
Qed.

(** X6: load_transcript reads back what transcribe_audio wrote: for segments
    whose formatted times have no white space or colon and whose texts have
    no line break, loading the written file gives, for each segment in
    order, the range "start-end" and the stripped text. *)
Theorem transcript_round_trip (linesep : string)
    (segments : list (Whisper.Segment T)) (path : string) (fs : gmap string string) :
  linesep = String File.LF "" ∨ linesep = String File.CR (String File.LF "") →
  Forall (Vocab.writable fmt) segments →
  load_transcript (transcribe_audio fmt linesep segments path fs) path
  = Ok ((fun seg => (fmt (Whisper.start seg) +:+ "-" +:+ fmt (Whisper.end_ seg),
                     Str.strip (Whisper.text seg))) <$> segments).
Proof. apply written_transcript_loads. Qed.

(** X18: merge_segments does not fail on what load_transcript reads from a
    transcript transcribe_audio wrote: every line is well formed and every
    range has its '-', so neither the load nor the merge raises. *)
Theorem written_transcript_merges (linesep : string)
    (segments : list (Whisper.Segment T)) (path : string) (fs : gmap string string) :
  linesep = String File.LF "" ∨ linesep = String File.CR (String File.LF "") →
  Forall (Vocab.writable fmt) segments →
  ∃ merged,
    (loaded ← load_transcript (transcribe_audio fmt linesep segments path fs) path;
     merge_segments loaded)
    = Ok merged.
Proof.
  intros Hsep Hw.
  rewrite written_transcript_loads by done. cbn [mbind result_bind].
  destruct (for_each_well_formed []
              ((fun seg => (fmt (Whisper.start seg) +:+ "-" +:+ fmt (Whisper.end_ seg),
                            Str.strip (Whisper.text seg))) <$> segments))
    as (merged & Hmerge & _); [by constructor | |].
  - apply Forall_fmap, Forall_forall. intros seg _.
    unfold Spec.well_formed; simpl. rewrite !str_mem_app. simpl.
    by rewrite orb_true_r.
  - by exists merged.
Qed.

End RoundTrip.

Lemma transcript_round_trip_witness :
  load_transcript
    (transcribe_audio (fun t : bool => if t then "3.0" else "0.0")
       (String File.CR (String File.LF ""))
       [{| Whisper.start := false; Whisper.end_ := true;
           Whisper.text := " You can burn 200 calories" |}]
       "transcript.txt" ∅)
    "transcript.txt"
  = Ok [("0.0-3.0", "You can burn 200 calories")].
Proof.
  refine (transcript_round_trip (fun t : bool => if t then "3.0" else "0.0") _
            [{| Whisper.start := false; Whisper.end_ := true;
                Whisper.text := " You can burn 200 calories" |}]
            "transcript.txt" ∅ _ _).
  - by right.
  - by repeat constructor.
Defined.

Lemma written_transcript_merges_witness :
  ∃ merged,
    (loaded ← load_transcript
                (transcribe_audio (fun t : bool => if t then "3.0" else "0.0")
                   (String File.LF "")
                   [{| Whisper.start := false; Whisper.end_ := true;
                       Whisper.text := " You can burn" |};
                    {| Whisper.start := true; Whisper.end_ := true;
                       Whisper.text := " calories" |}]
                   "transcript.txt" ∅)
                "transcript.txt";
     merge_segments loaded)
    = Ok merged.
Proof.
  refine (written_transcript_merges (fun t : bool => if t then "3.0" else "0.0")
            (String File.LF "") _ "transcript.txt" ∅ _ _).
  - by left.
  - by repeat constructor.
Defined.

(** ** [split_sentences] and [extract_entities] *)

Lemma split_inner_loop (timerange : string) (spans : list Spacy.Span)
    (acc : list (string * string)) :
  foldl (fun sentences sent => sentences ++ [(timerange, Spacy.text sent)]) acc spans
  = acc ++ ((fun sent => (timerange, Spacy.text sent)) <$> spans).
Proof.
  revert acc. induction spans as [|sent spans IH]; intros acc; simpl.
  - by rewrite app_nil_r.
  - by rewrite IH, <- app_assoc.
Qed.

Lemma split_outer_loop (nlp : string → Spacy.Doc) (segments acc : list (string * string)) :
  foldl (fun sentences '(timerange, text) =>
           let doc := nlp text in
           foldl (fun sentences sent => sentences ++ [(timerange, Spacy.text sent)])
             sentences (Spacy.sents doc))
    acc segments
  = acc ++ (segments ≫= (fun '(timerange, text) =>
              (fun sent => (timerange, Spacy.text sent)) <$> Spacy.sents (nlp text))).
Proof.
  revert acc. induction segments as [|[timerange text] segments IH]; intros acc.
  - simpl. by rewrite app_nil_r.
  - cbn [foldl]. rewrite IH. cbn zeta. rewrite split_inner_loop, <- app_assoc. done.
Qed.

(** The two loops of [split_sentences] list, segment after segment, the
    sentences of the segment under its time range. *)
Lemma split_sentences_bind (nlp : string → Spacy.Doc) (segments : list (string * string)) :
  split_sentences nlp segments
  = segments ≫= (fun '(timerange, text) =>
                   (fun sent => (timerange, Spacy.text sent)) <$> Spacy.sents (nlp text)).
Proof. unfold split_sentences. by rewrite split_outer_loop. Qed.

Lemma split_sentences_elem (nlp : string → Spacy.Doc)
    (segments : list (string * string)) (timerange sentence : string) :
  (timerange, sentence) ∈ split_sentences nlp segments
  ↔ ∃ text sent, (timerange, text) ∈ segments
                 ∧ sent ∈ Spacy.sents (nlp text)
                 ∧ sentence = Spacy.text sent.
Proof.
  rewrite split_sentences_bind, list_elem_of_bind. split.
  - intros ([tr text] & Hin & Hseg).
    apply list_elem_of_fmap in Hin as (sent & [= -> ->] & Hsent).
    by exists text, sent.
  - intros (text & sent & Hseg & Hsent & ->). exists (timerange, text).
    split; [|done]. apply list_elem_of_fmap. by exists sent.
Qed.

(** X7: every sentence split_sentences returns carries the time range of
    the segment it was split from, and every sentence of every segment is
    returned. *)
Theorem split_sentences_provenance (nlp : string → Spacy.Doc)
    (segments : list (string * string)) (timerange sentence : string) :
  (timerange, sentence) ∈ split_sentences nlp segments
  ↔ ∃ text sent, (timerange, text) ∈ segments
                 ∧ sent ∈ Spacy.sents (nlp text)
                 ∧ sentence = Spacy.text sent.
Proof. apply split_sentences_elem. Qed.

(** X8: segments are split independently of each other, in order: the
    sentences of a concatenation are the sentences of its parts. *)
Theorem split_sentences_app (nlp : string → Spacy.Doc)
    (segments1 segments2 : list (string * string)) :
  split_sentences nlp (segments1 ++ segments2)
  = split_sentences nlp segments1 ++ split_sentences nlp segments2.
Proof. rewrite !split_sentences_bind. apply bind_app. Qed.

Lemma extract_loop (nlp : string → Spacy.Doc) (sentences : list (string * string))
    (acc : list (string * string * list (string * string))) :
  foldl (fun results '(timerange, sent) =>
           let doc := nlp sent in
           let ents := (fun ent => (Spacy.text ent, Spacy.label_ ent)) <$> Spacy.ents doc in
           results ++ [(timerange, sent, ents)])
    acc sentences
  = acc ++ ((fun item : string * string => (item, Vocab.ents_of nlp item.2))
              <$> sentences).
Proof.
  revert acc. induction sentences as [|[timerange sent] sentences IH]; intros acc.
  - simpl. by rewrite app_nil_r.
  - cbn [foldl]. rewrite IH, <- app_assoc. done.
Qed.

Lemma extract_entities_map (nlp : string → Spacy.Doc)
    (sentences : list (string * string)) :
  extract_entities nlp sentences
  = (fun item : string * string => (item, Vocab.ents_of nlp item.2)) <$> sentences.
Proof. unfold extract_entities. by rewrite extract_loop. Qed.

(** X9: extract_entities neither drops nor reorders sentences: without their
    entities its results are its input, and the entities of each result are
    those the model finds in its sentence. *)
Theorem extract_entities_keeps_sentences (nlp : string → Spacy.Doc)
    (sentences : list (string * string)) :
  (extract_entities nlp sentences).*1 = sentences
  ∧ Forall (fun item : string * string * list (string * string) =>
              item.2 = (fun ent => (Spacy.text ent, Spacy.label_ ent))
                         <$> Spacy.ents (nlp item.1.2))
      (extract_entities nlp sentences).
Proof.
  rewrite extract_entities_map. split.
  - rewrite <- list_fmap_compose. by rewrite list_fmap_id.
  - apply Forall_fmap, Forall_forall. by intros item _.
Qed.

(** ** [filter_claims] with any parameters *)

Lemma filter_sublist {A : Type} (f : A → bool) (l : list A) :
  sublist (List.filter f l) l.
Proof.
  induction l as [|x l IH]; simpl; [constructor|].
  destruct (f x); by constructor.
Qed.

Lemma filter_filter {A : Type} (f g : A → bool) (l : list A) :
  List.filter f (List.filter g l) = List.filter g (List.filter f l).
Proof.
  induction l as [|x l IH]; simpl; [done|].
  destruct (g x) eqn:Hg, (f x) eqn:Hf; simpl; rewrite ?Hg, ?Hf, ?IH; done.
Qed.

Lemma filter_idem {A : Type} (f : A → bool) (l : list A) :
  List.filter f (List.filter f l) = List.filter f l.
Proof.
  induction l as [|x l IH]; simpl; [done|].
  destruct (f x) eqn:Hf; simpl; rewrite ?Hf, ?IH; done.
Qed.

Lemma filter_mono {A : Type} (f g : A → bool) (l : list A) :
  (∀ x, f x = true → g x = true) →
  sublist (List.filter f l) (List.filter g l).
Proof.
  intros H. induction l as [|x l IH]; simpl; [constructor|].
  destruct (f x) eqn:Hf.
  - rewrite (H x Hf). by constructor.
  - destruct (g x); [by constructor | done].
Qed.

(** [filter_claims] is the filter by the test of its loop. *)
Lemma filter_claims_filter (rs : list (string * string * list (string * string)))
    (allowed_labels : option (gset string)) (keyword_pattern : option pattern) :
  filter_claims rs allowed_labels keyword_pattern
  = List.filter
      (Vocab.passes (Vocab.labels_of allowed_labels) (Vocab.pattern_of keyword_pattern))
      rs.
Proof.
  unfold filter_claims. rewrite filter_loop. simpl.
  apply List.filter_ext. by intros [[timerange sent] ents].
Qed.

(** X10: whatever its parameters, filter_claims returns a sublist of its
    input (nothing added, changed or reordered) that has exactly the items
    with an allowed label or a keyword match. *)
Theorem filter_claims_selects (rs : list (string * string * list (string * string)))
    (allowed_labels : option (gset string)) (keyword_pattern : option pattern) :
  sublist (filter_claims rs allowed_labels keyword_pattern) rs
  ∧ ∀ timerange sent ents,
      (timerange, sent, ents) ∈ filter_claims rs allowed_labels keyword_pattern
      ↔ (timerange, sent, ents) ∈ rs
        ∧ ((∃ text label, (text, label) ∈ ents
                          ∧ label ∈ Vocab.labels_of allowed_labels)
           ∨ re_search (Vocab.pattern_of keyword_pattern) sent = true).
Proof.
  rewrite filter_claims_filter. split; [apply filter_sublist|].
  intros timerange sent ents.
  rewrite list_elem_of_In, List.filter_In, <- list_elem_of_In.
  unfold Vocab.passes, has_label; simpl.
  rewrite orb_true_iff, existsb_exists. apply and_iff_compat_l, or_iff_compat_r.
  split.
  - intros ([text label] & Hin%list_elem_of_In & H%bool_decide_eq_true_1).
    by exists text, label.
  - intros (text & label & Hin & H). exists (text, label).
    split; [by apply list_elem_of_In | by apply bool_decide_eq_true_2].
Qed.

(** X11: filter_claims is idempotent: filtering its result again with the
    same parameters changes nothing. *)
Theorem filter_claims_idempotent (rs : list (string * string * list (string * string)))
    (allowed_labels : option (gset string)) (keyword_pattern : option pattern) :
  filter_claims (filter_claims rs allowed_labels keyword_pattern)
    allowed_labels keyword_pattern
  = filter_claims rs allowed_labels keyword_pattern.
Proof. rewrite !filter_claims_filter. apply filter_idem. Qed.

(** X12: allowing more labels keeps more: when every allowed label of one
    set is in another, what filter_claims keeps with the first is a sublist
    of what it keeps with the second. *)
Theorem filter_claims_monotone (rs : list (string * string * list (string * string)))
    (labels labels' : gset string) (keyword_pattern : option pattern) :
  labels ⊆ labels' →
  sublist (filter_claims rs (Some labels) keyword_pattern)
    (filter_claims rs (Some labels') keyword_pattern).
Proof.
  intros Hsub. rewrite !filter_claims_filter. apply filter_mono.
  intros [[timerange sent] ents]. unfold Vocab.passes; simpl.
  rewrite !orb_true_iff. intros [H|H]; [left | by right].
  unfold has_label in *. apply existsb_exists in H as ([text label] & Hin & H).
  apply existsb_exists. exists (text, label). split; [done|].
  apply bool_decide_eq_true_1 in H. apply bool_decide_eq_true_2. by apply Hsub.
Qed.

Lemma filter_claims_monotone_witness :
  sublist
    (filter_claims [("0-1", "I ate 200 apples", [("200", "CARDINAL")]);
                    ("1-2", "Bob weighs 80 kilos", [("Bob", "PERSON")])]
       (Some {[ "CARDINAL" ]}) None)
    (filter_claims [("0-1", "I ate 200 apples", [("200", "CARDINAL")]);
                    ("1-2", "Bob weighs 80 kilos", [("Bob", "PERSON")])]
       (Some {[ "CARDINAL"; "PERSON" ]}) None).
Proof.
  apply filter_claims_monotone.
  intros label Hl. apply elem_of_union. by left.
Defined.

(** X13: the two stages of the script commute: applying is_strong_claim to
    what filter_claims keeps gives what filter_claims keeps of the sentences
    that pass is_strong_claim. *)
Theorem filter_stages_commute (rs : list (string * string * list (string * string)))
    (allowed_labels : option (gset string)) (keyword_pattern : option pattern) :
  List.filter (fun '(t, s, e) => is_strong_claim s)
    (filter_claims rs allowed_labels keyword_pattern)
  = filter_claims (List.filter (fun '(t, s, e) => is_strong_claim s) rs)
      allowed_labels keyword_pattern.
Proof. rewrite !filter_claims_filter. apply filter_filter. Qed.

(** ** The script *)

(** X14: what the script reports: a triple is a final claim exactly when its
    sentence is a sentence the model splits from a merged segment of the
    transcript, under the time range of that segment, with the entities the
    model finds in it, and it passes both stages: a numeric label or a
    keyword, and is_strong_claim. *)
Theorem claim_extract_main_claims (nlp : string → Spacy.Doc)
    (fs : gmap string string) (path : string)
    (final : list (string * string * list (string * string))) :
  claim_extract_main nlp fs path = Ok final →
  ∃ segments merged,
    load_transcript fs path = Ok segments
    ∧ merge_segments segments = Ok merged
    ∧ ∀ timerange sent ents,
        (timerange, sent, ents) ∈ final
        ↔ (∃ text span, (timerange, text) ∈ merged
                        ∧ span ∈ Spacy.sents (nlp text)
                        ∧ sent = Spacy.text span)
          ∧ ents = Vocab.ents_of nlp sent
          ∧ (Spec.has_numeric ents ∨ Spec.has_keyword sent)
          ∧ is_strong_claim sent = true.
Proof.
  unfold claim_extract_main.
  destruct (load_transcript fs path) as [segments|e]; [|done].
  cbn [mbind result_bind].
  destruct (merge_segments segments) as [merged|e] eqn:Hmerge; [|done].
  cbn [mbind result_bind]. intros [= <-]. exists segments, merged.
  split_and!; [done..|]. intros timerange sent ents.
  rewrite list_elem_of_In, List.filter_In, <- list_elem_of_In.
  rewrite filter_claims_filter, list_elem_of_In, List.filter_In, <- list_elem_of_In.
  rewrite extract_entities_map, list_elem_of_fmap.
  unfold Vocab.passes; simpl.
  rewrite orb_true_iff, has_label_default, keyword_search.
  split.
  - intros [[([tr s] & [= -> -> ->] & Hin) Hpass] Hstrong].
    by apply split_sentences_elem in Hin.
  - intros (Hin & -> & Hpass & Hstrong). split_and!; [|done..].
    exists (timerange, sent). split; [done|]. by apply split_sentences_elem.
Qed.

Lemma claim_extract_main_claims_witness :
  ∃ segments merged,
    load_transcript {[ "transcript.txt" := "0.0-1.5: You can
1.5-3.0: burn 200 calories" ]} "transcript.txt" = Ok segments
    ∧ merge_segments segments = Ok merged
    ∧ ∀ timerange sent ents,
        (timerange, sent, ents) ∈ [("0.0-3.0", "You can burn 200 calories", [("200", "CARDINAL")])]
        ↔ (∃ text span, (timerange, text) ∈ merged
                        ∧ span ∈ Spacy.sents
                            ((fun text =>
                                {| Spacy.sents := [{| Spacy.text := text; Spacy.label_ := "" |}];
                                   Spacy.ents := [{| Spacy.text := "200";
                                                     Spacy.label_ := "CARDINAL" |}] |}) text)
                        ∧ sent = Spacy.text span)
          ∧ ents = Vocab.ents_of
                     (fun text =>
                        {| Spacy.sents := [{| Spacy.text := text; Spacy.label_ := "" |}];
                           Spacy.ents := [{| Spacy.text := "200";
                                             Spacy.label_ := "CARDINAL" |}] |}) sent
          ∧ (Spec.has_numeric ents ∨ Spec.has_keyword sent)
          ∧ is_strong_claim sent = true.
Proof.
  apply (claim_extract_main_claims
           (fun text =>
              {| Spacy.sents := [{| Spacy.text := text; Spacy.label_ := "" |}];
                 Spacy.ents := [{| Spacy.text := "200"; Spacy.label_ := "CARDINAL" |}] |})
           {[ "transcript.txt" := "0.0-1.5: You can
1.5-3.0: burn 200 calories" ]} "transcript.txt").
  by vm_compute.
Defined.

(** ** [is_strong_claim]: case and first character *)

Section CaseFlag.

Local Arguments String.append : simpl nomatch.

(** On a subject in lowercase a pattern with lowercase literals matches the
    same with and without [re.IGNORECASE]. *)
Lemma run_flag (r : regex) (prev : option ascii) (s : string)
    (k k' : option ascii → string → bool) :
  Vocab.lower_literals r = true → Str.lower s = s →
  (∀ p t, Str.lower t = t → k p t = k' p t) →
  Re.run true r prev s k = Re.run false r prev s k'.
Proof.
  revert prev s k k'.
  induction r as [|c|r1 IH1 r2 IH2|r1 IH1 r2 IH2|r1 IH1|r1 IH1| |];
    intros prev s k k' Hr Hs Hk; simpl in Hr |- *.
  - by apply Hk.
  - destruct s as [|a s]; [done|]. unfold Str.lower in Hs; simpl in Hs.
    injection Hs as Ha Hs. apply bool_decide_eq_true_1 in Hr.
    unfold Re.lit_eq. rewrite Ha, Hr. case_bool_decide; [by apply Hk | done].
  - apply andb_true_iff in Hr as [Hr1 Hr2].
    apply IH1; [done..|]. intros p t Ht. by apply IH2.
  - apply andb_true_iff in Hr as [Hr1 Hr2].
    by rewrite (IH1 _ _ k k'), (IH2 _ _ k k').
  - by rewrite (IH1 _ _ k k'), Hk.
  - by apply IH1.
  - by rewrite Hk.
  - by rewrite Hk.
Qed.

Lemma scan_flag (r : regex) (prev : option ascii) (s : string) :
  Vocab.lower_literals r = true → Str.lower s = s →
  Re.scan true r prev s = Re.scan false r prev s.
Proof.
  intros Hr. revert prev. induction s as [|a s IH]; intros prev Hs; simpl.
  - by rewrite (run_flag r prev "" Re.accept Re.accept).
  - rewrite (run_flag r prev (String a s) Re.accept Re.accept) by done.
    unfold Str.lower in Hs; simpl in Hs. injection Hs as _ Hs. by rewrite IH.
Qed.

End CaseFlag.

(** X16: the IGNORECASE flag of the two patterns matters beyond Latin-1
    only.  On a sentence whose characters are all code points below 256,
    is_strong_claim, which lowercases the sentence first, gives the same
    answer with the patterns compiled without the flag; on "it iſ good",
    with a long s, it gives True with the flag and False without. *)
Theorem ignorecase_matters_beyond_latin1 :
  (∀ sent : string, is_strong_claim_cased sent = is_strong_claim sent)
  ∧ Wide.is_strong_claim Wide.it_is_long_s = true
  ∧ Wide.is_strong_claim_cased Wide.it_is_long_s = false.
Proof.
  split_and!; [|by vm_compute..].
  intros sent.
  unfold is_strong_claim_cased, is_strong_claim, re_match, re_search.
  cbn [source ignorecase].
  rewrite <- (run_flag _ None (Str.lower sent) Re.accept Re.accept);
    [|done|apply lower_idem|done].
  by rewrite <- scan_flag; [|done|apply lower_idem].
Qed.

(** A sentence that starts like an introduction starts with o, t or m, in
    either case. *)
Lemma intro_start_head (c : ascii) (s : string) :
  Spec.intro_start (String c s) →
  Char.lower c ∈ ["o"; "t"; "m"]%char.
Proof.
  intros (p & Hp & rest & Hs). unfold Str.lower in Hs; simpl in Hs.
  unfold Spec.INTROS in Hp. rewrite !elem_of_cons, elem_of_nil in Hp.
  rewrite !elem_of_cons.
  destruct Hp as [->|[->|[->|[->|[]]]]]; injection Hs as -> _; tauto.
Qed.

(** X17: the intro test looks at the very start of the sentence only: a
    sentence whose first character is not o, t or m (in either case), a
    leading space for one, is never rejected as an introduction, and is a
    strong claim exactly when it has one of the verbs. *)
Theorem is_strong_claim_first_char (c : ascii) (s : string) :
  Char.lower c ∉ ["o"; "t"; "m"]%char →
  (is_strong_claim (String c s) = true ↔ Spec.has_verb (String c s)).
Proof.
  intros Hc. unfold is_strong_claim. cbn zeta.
  destruct (re_match INTRO_PATTERN (Str.lower (String c s))) eqn:Hintro.
  - apply intro_match, intro_start_head in Hintro. done.
  - apply verb_search.
Qed.

Lemma is_strong_claim_first_char_witness :
  is_strong_claim " That's what it is" = true
  ↔ Spec.has_verb " That's what it is".
Proof.
  apply (is_strong_claim_first_char " " "That's what it is").
  rewrite !elem_of_cons, elem_of_nil. intros [H|[H|[H|[]]]]; discriminate H.
Defined.

(** ** [merge_segments]: one pass *)

(** An iteration changes the last entry of the output at most. *)
Lemma merge_step_commits (out tl merged' : list (string * string)) (seg : string * string) :
  tl ≠ [] →
  merge_step (out ++ tl) seg = Ok merged' →
  ∃ tl', tl' ≠ [] ∧ merged' = out ++ tl'.
Proof.
  intros Hne Hstep. destruct seg as [timerange text].
  destruct tl as [|[prev_range prev_text] tl0 _] using rev_ind; [done|].
  rewrite app_assoc in Hstep.
  apply merge_step_snoc in Hstep as [(_ & _ & _ & ->)|(_ & ->)];
    rewrite <- app_assoc; eexists; (split; [|reflexivity]); by destruct tl0.
Qed.

Lemma for_each_commits (out tl segs out' : list (string * string)) :
  tl ≠ [] →
  for_each merge_step (out ++ tl) segs = Ok out' →
  out `prefix_of` out'.
Proof.
  revert tl. induction segs as [|seg segs IH]; intros tl Hne; cbn [for_each].
  - intros [= <-]. by exists tl.
  - destruct (merge_step (out ++ tl) seg) as [acc'|e] eqn:Hstep; [|done].
    cbn [mbind result_bind].
    apply merge_step_commits in Hstep as (tl' & Hne' & ->); [|done].
    by apply IH.
Qed.

(** X19: a merge is never undone: when more segments follow, every entry of
    the output so far but the last is kept as it is, at its place. *)
Theorem merge_segments_commits (segs more out out' : list (string * string))
    (last_entry : string * string) :
  merge_segments segs = Ok (out ++ [last_entry]) →
  merge_segments (segs ++ more) = Ok out' →
  out `prefix_of` out'.
Proof.
  unfold merge_segments. intros Hrun. rewrite for_each_app, Hrun.
  cbn [mbind result_bind]. by apply for_each_commits.
Qed.

Lemma merge_segments_commits_witness :
  [("10-14", "Hello world")]
  `prefix_of` [("10-14", "Hello world"); ("14-18", "Today it is"); ("18-20", "Done")].
Proof.
  apply (merge_segments_commits
           [("10-12", "Hello"); ("12-14", "world"); ("14-16", "Today")]
           [("16-18", "it is"); ("18-20", "Done")]
           _ _ ("14-16", "Today")); reflexivity.
Defined.

(** ** The scenarios of the specification *)

Example verb_pattern_source :
  Re.show (source VERB_PATTERN) = "\b(lose|gain|burn|get|makes?|is|will|can|do)\b".
Proof. reflexivity. Qed.

Example intro_pattern_source :
  Re.show (source INTRO_PATTERN) = "^(one of|that'?s|my name|that's)".
Proof. reflexivity. Qed.

Example keyword_pattern_source :
  Re.show (source KEYWORD_PATTERN) = "\b(calories?|pound(s)?|weight|energy)\b".
Proof. reflexivity. Qed.

Example intro_rejected : is_strong_claim "That's 200 calories" = false.
Proof. reflexivity. Qed.

Example verb_required : is_strong_claim "This contains 200 calories" = false.
Proof. reflexivity. Qed.

Example end_to_end :
  (segments ← load_transcript {[ "transcript.txt" := "0.0-3.0: You can burn 200 calories" ]}
                "transcript.txt";
   merge_segments segments)
  = Ok [("0.0-3.0", "You can burn 200 calories")]
  ∧ List.filter (fun '(_, sent, _) => is_strong_claim sent)
      (filter_claims
         [("0.0-3.0", "You can burn 200 calories", [("200", "CARDINAL")])] None None)
    = [("0.0-3.0", "You can burn 200 calories", [("200", "CARDINAL")])].
Proof. split; by vm_compute. Qed.
